(** * dynamic-data-table: rows, columns, CSV interchange and the derived view

    A shallow embedding of the TypeScript sources

    - [utils/csv]   ([parseCSV], [exportCSV]),
    - [store/index] (the [data] and [column] slices and their reducers),
    - [App.tsx]     (the [filtered] and [paginated] memos, the handlers),

    followed by the properties of the specification that concern them.

    Conventions.  A JavaScript string is a Rocq [string]; every character
    stands for one UTF-16 code unit, so the development speaks about text
    whose code units lie below 256 (the Latin-1 range); white space and case
    conversion are those the language defines on that range.  A JavaScript
    number is a double; [number] has the finite doubles and the two
    infinities, NaN is the [None] of [option number], and the two zeros are
    one value, as no operation of the program tells them apart.  A plain
    object used as a record is a [gmap string _]; reading a key that is not
    there gives [undefined]. *)

From Stdlib Require Import ZArith Ascii.
From stdpp Require Import base tactics option list numbers strings pretty gmap fin_maps sorting.

Local Open Scope Z_scope.

(* ================================================================== *)
(** * Part I: definitions                                              *)
(* ================================================================== *)

(** ** JavaScript values and the language operations the sources use *)
Module JS.

(** *** Numbers

    Every finite double is an integer multiple of [2^-1074], the smallest
    positive double: [Fin k] is the number [k * 2^-1074].  The doubles are
    the [Fin k] whose [k] has at most 53 significant bits and lies below
    [2^2098] in absolute value; the conversions below round to these. *)
Inductive number : Type :=
  | Fin (k : Z)
  | PosInf
  | NegInf.

#[global] Instance number_eq_dec : EqDecision number.
Proof. solve_decision. Defined.

(** [- x]. *)
Definition neg (x : number) : number :=
  match x with
  | Fin k => Fin (- k)
  | PosInf => NegInf
  | NegInf => PosInf
  end.

(** [x < y] on numbers. *)
Definition num_ltb (x y : number) : bool :=
  match x, y with
  | Fin a, Fin b => a <? b
  | NegInf, (Fin _ | PosInf) => true
  | Fin _, PosInf => true
  | _, _ => false
  end.

(** The integer nearest to [a / b], the even one of two that are equally
    near; [0 <= a] and [0 < b]. *)
Definition div_half_even (a b : Z) : Z :=
  let q := a / b in
  let r := a mod b in
  if 2 * r <? b then q
  else if b <? 2 * r then q + 1
  else if Z.even q then q else q + 1.

(** The integer [e] with [2^e <= p / q < 2^(e+1)]; [0 < p] and [0 < q]. *)
Definition ilog2_ratio (p q : Z) : Z :=
  let e := Z.log2 p - Z.log2 q in
  if (if 0 <=? e then q * 2 ^ e <=? p else q <=? p * 2 ^ (- e)) then e else e - 1.

(** The Number value for the positive rational [p / q]: the double nearest
    to it, the one with the even significand of two that are equally near.
    With [2^e <= p / q < 2^(e+1)] the doubles around [p / q] are the
    multiples of [2^u], [u] being [e - 52] and at least [-1074]; from
    [2^1024] on the result is [Infinity]. *)
Definition round_pos (p q : Z) : number :=
  let e := ilog2_ratio p q in
  let u := Z.max (e - 52) (-1074) in
  let m := if 0 <=? u then div_half_even p (q * 2 ^ u)
           else div_half_even (p * 2 ^ (- u)) q in
  let k := m * 2 ^ (u + 1074) in
  if 2 ^ 2098 <=? k then PosInf else Fin k.

(** The Number value for the rational [p / q], [0 < q]. *)
Definition round_ratio (p q : Z) : number :=
  if p =? 0 then Fin 0
  else if p <? 0 then neg (round_pos (- p) q)
  else round_pos p q.

(** The Number value for [d * 10^x]. *)
Definition round_dec (d x : Z) : number :=
  if 0 <=? x then round_ratio (d * 10 ^ x) 1 else round_ratio d (10 ^ (- x)).

(** The Number value for an integer, as for a numeric literal of the
    sources. *)
Definition of_Z (n : Z) : number := round_ratio n 1.

Coercion of_Z : Z >-> number.

(** *** Strings *)

(** WhiteSpace and LineTerminator below 256: TAB, LF, VT, FF, CR, the space
    and the no-break space. *)
Definition is_white (c : ascii) : bool :=
  let n := nat_of_ascii c in
  ((9 <=? n) && (n <=? 13) || (n =? 32) || (n =? 160))%nat.

Fixpoint trimStart (s : string) : string :=
  match s with
  | String c s' => if is_white c then trimStart s' else s
  | EmptyString => EmptyString
  end.

Fixpoint trimEnd (s : string) : string :=
  match s with
  | String c s' =>
      match trimEnd s' with
      | EmptyString => if is_white c then EmptyString else String c EmptyString
      | t => String c t
      end
  | EmptyString => EmptyString
  end.

(** [s.trim()]. *)
Definition trim (s : string) : string := trimEnd (trimStart s).

(** The letters with a lower-case form below 256 are [A] to [Z] and the
    codes 192 to 222 without the multiplication sign 215; the lower-case
    form is 32 further. *)
Definition lower_char (c : ascii) : ascii :=
  let n := nat_of_ascii c in
  if ((65 <=? n) && (n <=? 90) ||
      (192 <=? n) && (n <=? 222) && negb (n =? 215))%nat
  then ascii_of_nat (n + 32) else c.

(** [s.toLowerCase()]. *)
Fixpoint toLowerCase (s : string) : string :=
  match s with
  | EmptyString => EmptyString
  | String c s' => String (lower_char c) (toLowerCase s')
  end.

Fixpoint startsWith (s p : string) : bool :=
  match p, s with
  | EmptyString, _ => true
  | String _ _, EmptyString => false
  | String a p', String b s' => bool_decide (a = b) && startsWith s' p'
  end.

(** [s.includes(q)]. *)
Fixpoint includes (s q : string) : bool :=
  startsWith s q ||
  match s with
  | EmptyString => false
  | String _ s' => includes s' q
  end.

(** [xs.join(sep)] on strings. *)
Fixpoint join (sep : string) (xs : list string) : string :=
  match xs with
  | [] => ""
  | [x] => x
  | x :: xs' => x +:+ sep +:+ join sep xs'
  end.

(** Code-unit order on strings: [ltb s t] is [s < t]. *)
Definition str_ltb (s t : string) : bool :=
  match String.compare s t with Lt => true | _ => false end.

(** *** StringToNumber *)

(** The value of a digit in a radix up to 16. *)
Definition digit_value (radix : Z) (c : ascii) : option Z :=
  let n := Z.of_nat (nat_of_ascii c) in
  let d := if (48 <=? n) && (n <=? 57) then n - 48
           else if (97 <=? n) && (n <=? 102) then n - 87
           else if (65 <=? n) && (n <=? 70) then n - 55
           else 16 in
  if d <? radix then Some d else None.

(** The longest run of digits at the head of [s]: their value on top of
    [acc], their number on top of [n], and the rest of the text. *)
Fixpoint read_digits (radix acc n : Z) (s : string) : Z * Z * string :=
  match s with
  | String c s' =>
      match digit_value radix c with
      | Some d => read_digits radix (radix * acc + d) (n + 1) s'
      | None => (acc, n, s)
      end
  | EmptyString => (acc, n, s)
  end.

(** ExponentPart, which may be missing, up to the end of the text: the
    exponent, or [None] when the text is something else. *)
Definition read_exponent (s : string) : option Z :=
  match s with
  | EmptyString => Some 0
  | String c r =>
      if bool_decide (c = "e"%char) || bool_decide (c = "E"%char) then
        let '(sign, r1) :=
          match r with
          | String c1 r' =>
              if bool_decide (c1 = "-"%char) then (-1, r')
              else if bool_decide (c1 = "+"%char) then (1, r')
              else (1, r)
          | EmptyString => (1, r)
          end in
        match read_digits 10 0 0 r1 with
        | (x, n, EmptyString) => if 0 <? n then Some (sign * x) else None
        | _ => None
        end
      else None
  end.

(** StrUnsignedDecimalLiteral: [Infinity], or digits with an optional
    fraction and an optional exponent, one digit at least before the
    exponent.  With [d] the digits read as one integer and [nf] the number
    of those after the point, the value is [d * 10^(x - nf)].  It is
    [Infinity] from [10^400] on and [0] below [10^-400], which is decided on
    the exponent, so that no such power is ever computed. *)
Definition unsigned_decimal (s : string) : option number :=
  if bool_decide (s = "Infinity") then Some PosInf
  else
    let '(i, ni, r1) := read_digits 10 0 0 s in
    let '(d, nf, r2) :=
      match r1 with
      | String c r => if bool_decide (c = "."%char) then read_digits 10 i 0 r
                      else (i, 0, r1)
      | EmptyString => (i, 0, r1)
      end in
    if ni + nf =? 0 then None
    else
      match read_exponent r2 with
      | Some x =>
          Some (if d =? 0 then Fin 0
                else if 400 <? x - nf then PosInf
                else if x - nf <? - (ni + nf + 400) then Fin 0
                else round_dec d (x - nf))
      | None => None
      end.

(** NonDecimalIntegerLiteral after its prefix: digits of the radix to the
    end of the text, one at least. *)
Definition radix_literal (radix : Z) (s : string) : option number :=
  match read_digits radix 0 0 s with
  | (v, n, EmptyString) => if 0 <? n then Some (of_Z v) else None
  | _ => None
  end.

(** The radix a prefix [0x], [0o] or [0b] announces, and the text after it. *)
Definition radix_prefix (s : string) : option (Z * string) :=
  match s with
  | String c0 (String c1 r) =>
      if bool_decide (c0 = "0"%char) then
        if bool_decide (c1 = "x"%char) || bool_decide (c1 = "X"%char) then Some (16, r)
        else if bool_decide (c1 = "o"%char) || bool_decide (c1 = "O"%char) then Some (8, r)
        else if bool_decide (c1 = "b"%char) || bool_decide (c1 = "B"%char) then Some (2, r)
        else None
      else None
  | _ => None
  end.

(** StringToNumber: the white space around the text is dropped; the empty
    text is [0]; a literal with a radix prefix has no sign; a decimal
    literal may have one.  [None] is NaN. *)
Definition string_to_number (s : string) : option number :=
  let t := trim s in
  match radix_prefix t with
  | Some (radix, r) => radix_literal radix r
  | None =>
      match t with
      | EmptyString => Some (Fin 0)
      | String c r =>
          if bool_decide (c = "-"%char) then neg <$> unsigned_decimal r
          else if bool_decide (c = "+"%char) then unsigned_decimal r
          else unsigned_decimal t
      end
  end.

(** *** Number::toString *)

(** [K * 2^-1074 < 10^n]. *)
Definition lt_pow10 (K n : Z) : bool :=
  if 0 <=? n then K <? 10 ^ n * 2 ^ 1074 else K * 10 ^ (- n) <? 2 ^ 1074.

Fixpoint exponent_up (fuel : nat) (K n : Z) : Z :=
  match fuel with
  | O => n
  | S fuel' => if lt_pow10 K n then n else exponent_up fuel' K (n + 1)
  end.

Fixpoint exponent_down (fuel : nat) (K n : Z) : Z :=
  match fuel with
  | O => n
  | S fuel' => if lt_pow10 K (n - 1) then exponent_down fuel' K (n - 1) else n
  end.

(** The integer [n] with [10^(n-1) <= K * 2^-1074 < 10^n], [0 < K]: the
    search starts at an estimate taken from the binary logarithm. *)
Definition decimal_exponent (K : Z) : Z :=
  let est := (Z.log2 K - 1074) * 30103 / 100000 in
  exponent_down 700 K (exponent_up 700 K est).

(** The decimal with [k] digits that Number::toString takes for the double
    [K * 2^-1074], where [10^(n-1) <= K * 2^-1074 < 10^n]: integers [s] and
    [n'] with [10^(k-1) <= s < 10^k] such that [s * 10^(n'-k)] has [K] as its
    Number value; [None] when there is none.  Such a decimal is sought next
    below and next above the double; of two the nearer one is taken, and the
    even [s] when they are equally near. *)
Definition shortest_at (K n k : Z) : option (Z * Z) :=
  let t := n - k in
  let num := if 0 <=? t then K else K * 10 ^ (- t) in
  let den := if 0 <=? t then 2 ^ 1074 * 10 ^ t else 2 ^ 1074 in
  let lo := num / den in
  let r := num mod den in
  let hi := if lo + 1 <? 10 ^ k then (lo + 1, n) else (10 ^ (k - 1), n + 1) in
  let lo_ok := bool_decide (round_dec lo t = Fin K) in
  let hi_ok := bool_decide (round_dec (lo + 1) t = Fin K) in
  if lo_ok && hi_ok then
    if 2 * r <? den then Some (lo, n)
    else if den <? 2 * r then Some hi
    else if Z.even lo then Some (lo, n) else Some hi
  else if lo_ok then Some (lo, n)
  else if hi_ok then Some hi
  else None.

(** The decimal with the fewest digits, from [k] digits on.  Seventeen
    digits tell any two doubles apart. *)
Fixpoint shortest (fuel : nat) (K n k : Z) : Z * Z :=
  match fuel with
  | O => (K, 1075)
  | S fuel' =>
      match shortest_at K n k with
      | Some r => r
      | None => shortest fuel' K n (k + 1)
      end
  end.

Fixpoint zeros (n : nat) : string :=
  match n with O => "" | S n' => String "0" (zeros n') end.

(** Number::toString on the positive double [K * 2^-1074]: with the digits
    [s] and the exponent [n] as above, the digits are written in full when
    the point falls within 21 places of them, after [0.] and up to five
    zeros when the number starts within six places after the point, and in
    exponent notation otherwise. *)
Definition positive_to_string (K : Z) : string :=
  let '(s, n) := shortest 17 K (decimal_exponent K) 1 in
  let ds := pretty s in
  let k := Z.of_nat (String.length ds) in
  if (k <=? n) && (n <=? 21) then ds +:+ zeros (Z.to_nat (n - k))
  else if (0 <? n) && (n <=? 21) then
    String.substring 0 (Z.to_nat n) ds +:+ "." +:+
    String.substring (Z.to_nat n) (Z.to_nat (k - n)) ds
  else if (-6 <? n) && (n <=? 0) then "0." +:+ zeros (Z.to_nat (- n)) +:+ ds
  else
    let e := n - 1 in
    let es := (if e <? 0 then "-" else "+") +:+ pretty (Z.abs e) in
    if k =? 1 then ds +:+ "e" +:+ es
    else String.substring 0 1 ds +:+ "." +:+
         String.substring 1 (Z.to_nat (k - 1)) ds +:+ "e" +:+ es.

(** Number::toString.  A [Fin k] that is no double is read as the double
    nearest to it. *)
Definition number_to_string (x : number) : string :=
  match x with
  | PosInf => "Infinity"
  | NegInf => "-Infinity"
  | Fin k =>
      match round_ratio (Z.abs k) (2 ^ 1074) with
      | Fin K =>
          if K =? 0 then "0"
          else (if k <? 0 then "-" else "") +:+ positive_to_string K
      | _ => if k <? 0 then "-Infinity" else "Infinity"
      end
  end.

(** *** Values

    The values a row holds.  A [VNum] is never NaN: the numbers of a row
    are literals of the sources and seed ages, or come out of JSON, which
    has no NaN. *)

Inductive value : Type :=
  | VUndef
  | VNull
  | VNum (x : number)
  | VStr (s : string).

#[global] Instance value_eq_dec : EqDecision value.
Proof. solve_decision. Defined.

#[global] Instance value_inhabited : Inhabited value := populate VUndef.

(** [a === b] on primitive values. *)
Definition strict_eq (a b : value) : bool := bool_decide (a = b).

(** [v == null]: true for [null] and [undefined] only. *)
Definition loose_null (v : value) : bool :=
  match v with VUndef | VNull => true | _ => false end.

(** [String(v)]. *)
Definition to_string (v : value) : string :=
  match v with
  | VUndef => "undefined"
  | VNull => "null"
  | VNum x => number_to_string x
  | VStr s => s
  end.

(** ToNumber, which is also [Number(v)]; [None] is NaN. *)
Definition to_number (v : value) : option number :=
  match v with
  | VUndef => None
  | VNull => Some (Fin 0)
  | VNum x => Some x
  | VStr s => string_to_number s
  end.

(** [a > b] (IsLessThan with the operands swapped): two strings are compared
    by code units, anything else numerically after ToNumber, and a NaN makes
    the comparison false. *)
Definition gt (a b : value) : bool :=
  match a, b with
  | VStr s, VStr t => str_ltb t s
  | _, _ =>
      match to_number a, to_number b with
      | Some x, Some y => num_ltb y x
      | _, _ => false
      end
  end.

(** [arr.slice(start, end)] with both bounds given as integers. *)
Definition slice {A} (l : list A) (start stop : Z) : list A :=
  let len := Z.of_nat (length l) in
  let k := if start <? 0 then Z.max (len + start) 0 else Z.min start len in
  let e := if stop <? 0 then Z.max (len + stop) 0 else Z.min stop len in
  take (Z.to_nat (Z.max (e - k) 0)) (drop (Z.to_nat k) l).

(** [Array.prototype.sort] with a comparator returning a number.  The
    language fixes the result for a consistent comparator: the elements in
    ascending comparator order, elements that compare as [0] keeping their
    relative order.  It is modelled by the stable insertion sort; for a
    comparator that is not consistent the language leaves the order to the
    engine, and nothing is stated about it beyond its being a rearrangement. *)
Fixpoint sort_insert {A} (cmp : A → A → Z) (x : A) (l : list A) : list A :=
  match l with
  | [] => [x]
  | y :: l' => if cmp x y <=? 0 then x :: l else y :: sort_insert cmp x l'
  end.

Definition sort {A} (cmp : A → A → Z) (l : list A) : list A :=
  foldr (sort_insert cmp) [] l.

End JS.
Export JS.

(** ** types.ts *)

(** [RowData]: an object with string keys; [id], [name], [email] and [role]
    are declared as strings, every other key is free. *)
Abbreviation Row := (gmap string value).

(** [r[k]]: a key that is not there reads as [undefined]. *)
Definition get (r : Row) (k : string) : value := default VUndef (r !! k).

Record ColumnDef : Type := mkColumn {
  key : string;
  label : string;
  visible : bool;
}.

#[global] Instance ColumnDef_eq_dec : EqDecision ColumnDef.
Proof. solve_decision. Defined.

(** ** The papaparse calls of utils/csv

    [Papa.parse] and [Papa.unparse] come from the package papaparse, which is
    not among the sources.  This module models the two calls after the
    description the specification gives of the CSV text: a header line, one
    line per record, cells separated by commas, cells with a comma, a quote or
    a line break wrapped in quotes with the inner quotes doubled, empty lines
    skipped on reading. *)
Module Papa.

Definition comma : ascii := ","%char.
Definition quote : ascii := "034"%char.
Definition LF : ascii := "010"%char.
Definition CR : ascii := "013"%char.

(** The line break written between lines. *)
Definition newline : string := String CR (String LF "").

(** A record of the header-mode result: header name to cell text. *)
Abbreviation RawRow := (gmap string string).

(** An object whose key order matters: [Object.keys] lists first the keys
    that are array indices, by ascending value, and then the other keys in
    the order in which they were first assigned. *)
Abbreviation Obj := (list (string * value)).

(** An array index is the canonical text of an integer from [0] to
    [2^32 - 2]: decimal digits without a leading zero, [0] itself apart. *)
Definition array_index (k : string) : option Z :=
  match k with
  | EmptyString => None
  | String c r =>
      if bool_decide (c = "0"%char) && negb (bool_decide (r = "")) then None
      else
        match read_digits 10 0 0 k with
        | (v, _, EmptyString) => if v <? 4294967295 then Some v else None
        | _ => None
        end
  end.

(** Whether a key that is new to the object comes before the key [k']. *)
Definition key_before (k k' : string) : bool :=
  match array_index k, array_index k' with
  | Some i, Some j => i <? j
  | Some _, None => true
  | None, _ => false
  end.

(** A key that is new takes its place: an array index among the array
    indices, any other key at the end. *)
Fixpoint obj_insert (k : string) (v : value) (o : Obj) : Obj :=
  match o with
  | [] => [(k, v)]
  | (k', v') :: o' =>
      if key_before k k' then (k, v) :: o else (k', v') :: obj_insert k v o'
  end.

(** A key that is there keeps its place. *)
Fixpoint obj_replace (k : string) (v : value) (o : Obj) : Obj :=
  match o with
  | [] => []
  | (k', v') :: o' =>
      if decide (k = k') then (k, v) :: o' else (k', v') :: obj_replace k v o'
  end.

(** [o[k] = v]. *)
Definition obj_set (k : string) (v : value) (o : Obj) : Obj :=
  if decide (k ∈ o.*1) then obj_replace k v o else obj_insert k v o.

(** [o[k]]. *)
Fixpoint obj_get (k : string) (o : Obj) : value :=
  match o with
  | [] => VUndef
  | (k', v') :: o' => if decide (k = k') then v' else obj_get k o'
  end.

Inductive lex_mode : Type := AtStart | InPlain | InQuoted.

(** The table under construction has the current field at the head of the
    current record at the head of the table. *)
Definition add_char (c : ascii) (t : list (list string)) : list (list string) :=
  match t with
  | (f :: fs) :: rs => (String c f :: fs) :: rs
  | [] :: rs => [String c ""] :: rs
  | [] => [[String c ""]]
  end.

Definition new_field (t : list (list string)) : list (list string) :=
  match t with
  | r :: rs => ("" :: r) :: rs
  | [] => [[""]]
  end.

Definition new_record (t : list (list string)) : list (list string) :=
  [""] :: t.

(** Modelled from the spec: the tokenizer of [Papa.parse] (package
    papaparse, not among the sources).  Fields are separated by commas,
    lines by LF or CRLF; a field that opens with a quote runs to the closing
    quote, a doubled quote inside standing for one quote character. *)
Fixpoint tokenize (m : lex_mode) (s : string) : list (list string) :=
  match s with
  | EmptyString => [[""]]
  | String c s' =>
      match m with
      | InQuoted =>
          if decide (c = quote) then
            match s' with
            | String c2 s'' =>
                if decide (c2 = quote) then add_char quote (tokenize InQuoted s'')
                else tokenize InPlain s'
            | EmptyString => tokenize InPlain s'
            end
          else add_char c (tokenize InQuoted s')
      | _ =>
          if decide (c = comma) then new_field (tokenize AtStart s')
          else if decide (c = LF) then new_record (tokenize AtStart s')
          else if decide (c = CR) then
            match s' with
            | String c2 s'' =>
                if decide (c2 = LF) then new_record (tokenize AtStart s'')
                else add_char c (tokenize InPlain s')
            | EmptyString => add_char c (tokenize InPlain s')
            end
          else if decide (c = quote) then
            match m with
            | AtStart => tokenize InQuoted s'
            | _ => add_char c (tokenize InPlain s')
            end
          else add_char c (tokenize InPlain s')
      end
  end.

(** [skipEmptyLines: true]: a line is empty when it is one empty field. *)
Definition is_empty_line (r : list string) : bool :=
  bool_decide (r = [""]).

(** Modelled from the spec: [Papa.parse(text, {header: true,
    skipEmptyLines: true}).data].  The first line that is not empty is the
    header, every later one a record mapping header names to the cells at
    the same positions.  Cells beyond the header and repeated header names
    are outside the model. *)
Definition parse (text : string) : list RawRow :=
  match filter (λ r, is_empty_line r = false) (tokenize AtStart text) with
  | [] => []
  | header :: records =>
      (λ r, list_to_map (zip header r) : RawRow) <$> records
  end.

Fixpoint has_special (s : string) : bool :=
  match s with
  | EmptyString => false
  | String c s' =>
      bool_decide (c = comma) || bool_decide (c = quote) ||
      bool_decide (c = LF) || bool_decide (c = CR) || has_special s'
  end.

Fixpoint double_quotes (s : string) : string :=
  match s with
  | EmptyString => EmptyString
  | String c s' =>
      if decide (c = quote) then String quote (String quote (double_quotes s'))
      else String c (double_quotes s')
  end.

(** Modelled from the spec: the escaping done by [Papa.unparse].  A field with
    a comma, a quote or a line break is wrapped in quotes and its quotes are
    doubled. *)
Definition escape (s : string) : string :=
  if has_special s then String quote (double_quotes s +:+ String quote "")
  else s.

(** Modelled from the spec: the cell [Papa.unparse] writes for a value, its
    escaped text.  On [undefined] and [null] the specification is silent; the
    cell is left empty. *)
Definition safe (v : value) : string :=
  if loose_null v then "" else escape (to_string v).

Definition line (cells : list string) : string := join (String comma "") cells.

(** Modelled from the spec: [Papa.unparse(data)] on an array of objects: a
    header line with the keys of the first object, then one line per
    object, with the cells in header order; lines are joined by CRLF, and
    no data gives the empty text. *)
Definition unparse (data : list Obj) : string :=
  match data with
  | [] => ""
  | o :: _ =>
      let fields := o.*1 in
      join newline
        (line (escape <$> fields) ::
         ((λ row, line ((λ f, safe (obj_get f row)) <$> fields)) <$> data))
  end.

End Papa.

(** ** utils/csv *)
Module Csv.
Import Papa.

Record ParseResult : Type := mkResult {
  data : list Row;
  errors : list string;
}.

(** [r[k]] on a parsed record is falsy when absent or empty. *)
Definition present (o : option string) : bool :=
  match o with
  | Some s => negb (bool_decide (s = ""))
  | None => false
  end.

(** [r[k] || d]. *)
Definition or_else (o : option string) (d : value) : value :=
  match o with
  | Some s => if bool_decide (s = "") then d else VStr s
  | None => d
  end.

(** The template [`${Date.now()}-${i}`]. *)
Definition fresh_id (now : N) (i : nat) : string :=
  pretty now +:+ "-" +:+ pretty i.

(** The template [`Row ${i + 1}:missing name or email`]. *)
Definition missing_msg (i : nat) : string :=
  "Row " +:+ pretty (i + 1)%nat +:+ ":missing name or email".

(** The object literal returned by the callback of [res.data.map]: the five
    defaulted properties, then the spread [...r] on top of them. *)
Definition build_row (now : N) (i : nat) (r : RawRow) : Row :=
  (VStr <$> r) ∪
  list_to_map
    [ ("id", or_else (r !! "id") (VStr (fresh_id now i)));
      ("name", or_else (r !! "name") (VStr ""));
      ("email", or_else (r !! "email") (VStr ""));
      ("age", or_else (r !! "age") (VNum 0));
      ("role", or_else (r !! "role") (VStr "Viewer")) ].

(** [res.data.map((r, i) => ...)] together with the [errors.push] it does on
    the way.  [clock i] is what [Date.now()] returns while row [i] is built. *)
Fixpoint map_rows (clock : nat → N) (i : nat) (rs : list RawRow)
    (errs : list string) : list Row * list string :=
  match rs with
  | [] => ([], errs)
  | r :: rs' =>
      let errs1 :=
        if negb (present (r !! "name")) || negb (present (r !! "email"))
        then errs ++ [missing_msg i] else errs in
      let row := build_row (clock i) i r in
      let '(rows, errs2) := map_rows clock (S i) rs' errs1 in
      (row :: rows, errs2)
  end.

(** Lines 9 to 23 of [parseCSV], on the records the library returned. *)
Definition reconcile (clock : nat → N) (records : list RawRow) : ParseResult :=
  let '(rows, errs) := map_rows clock 0 records [] in
  mkResult rows errs.

Definition parseCSV (clock : nat → N) (text : string) : ParseResult :=
  reconcile clock (Papa.parse text).

(** The object [out] filled by [visibleKeys.forEach]. *)
Definition project (visibleKeys : list string) (r : Row) : Obj :=
  foldl (λ out item, obj_set item (get r item) out) [] visibleKeys.

(** [exportCSV], up to the wrapping of the text in a [Blob]. *)
Definition exportCSV (rows : list Row) (visibleKeys : list string) : string :=
  Papa.unparse (project visibleKeys <$> rows).

End Csv.


(** ** Array helpers used by the store *)

(** [arr.findIndex(p)]: the first position whose element satisfies [p],
    [-1] when there is none. *)
Fixpoint findIndex {A} (p : A → bool) (l : list A) : Z :=
  match l with
  | [] => -1
  | x :: l' =>
      if p x then 0
      else let i := findIndex p l' in if i <? 0 then -1 else i + 1
  end.

(** [arr.find(p)] returns the found object itself, which the caller then
    mutates; the reference is its position in the array. *)
Fixpoint find_ref {A} (p : A → bool) (l : list A) : option nat :=
  match l with
  | [] => None
  | x :: l' => if p x then Some 0%nat else S <$> find_ref p l'
  end.

(** ** store/index *)
Module Store.

(** [JSON.stringify] at the two state types that are persisted. *)
Class Stringify (A : Type) := JSON_stringify : A → string.

(** [localStorage]. *)
Abbreviation Storage := (gmap string string).

Definition sampleData : list Row :=
  [ list_to_map [("id", VStr "1"); ("name", VStr "Alice");
                 ("email", VStr "alice@example.com"); ("age", VNum 27);
                 ("role", VStr "Admin")];
    list_to_map [("id", VStr "2"); ("name", VStr "John");
                 ("email", VStr "john@example.com"); ("age", VNum 28);
                 ("role", VStr "IT")];
    list_to_map [("id", VStr "3"); ("name", VStr "Doby");
                 ("email", VStr "doby@example.com"); ("age", VNum 29);
                 ("role", VStr "Operations")] ].

Definition defaultColumns : list ColumnDef :=
  [ mkColumn "name" "Name" true; mkColumn "email" "Email" true;
    mkColumn "age" "Age" true; mkColumn "role" "Role" true ].

(** The two slices and the browser storage they write to. *)
Record AppState : Type := mkState {
  rows : list Row;
  columns : list ColumnDef;
  localStorage : Storage;
}.

Definition persist_rows `{!Stringify (list Row)} (rs : list Row) (ls : Storage) : Storage :=
  <["table_rows" := JSON_stringify rs]> ls.

Definition persist_columns `{!Stringify (list ColumnDef)} (cs : list ColumnDef)
    (ls : Storage) : Storage :=
  <["table_columns" := JSON_stringify cs]> ls.

Definition setRows `{!Stringify (list Row)} (st : AppState) (payload : list Row) : AppState :=
  mkState payload (columns st) (persist_rows payload (localStorage st)).

Definition updateRow `{!Stringify (list Row)} (st : AppState) (payload : Row) : AppState :=
  let idx := findIndex (λ r, strict_eq (get r "id") (get payload "id")) (rows st) in
  let rows1 := if 0 <=? idx then <[Z.to_nat idx := payload]> (rows st) else rows st in
  mkState rows1 (columns st) (persist_rows rows1 (localStorage st)).

Definition deleteRow `{!Stringify (list Row)} (st : AppState) (payload : string) : AppState :=
  let rows1 := filter (λ r, strict_eq (get r "id") (VStr payload) = false) (rows st) in
  mkState rows1 (columns st) (persist_rows rows1 (localStorage st)).

(** [c.visible = !c.visible]. *)
Definition flip_visible (c : ColumnDef) : ColumnDef :=
  mkColumn (key c) (label c) (negb (visible c)).

Definition toggleColumn `{!Stringify (list ColumnDef)} (st : AppState) (payload : string) : AppState :=
  let cols1 :=
    match find_ref (λ col, bool_decide (key col = payload)) (columns st) with
    | Some i => alter flip_visible i (columns st)
    | None => columns st
    end in
  mkState (rows st) cols1 (persist_columns cols1 (localStorage st)).

Definition addColumn `{!Stringify (list ColumnDef)} (st : AppState) (payload : ColumnDef) : AppState :=
  let cols1 := columns st ++ [payload] in
  mkState (rows st) cols1 (persist_columns cols1 (localStorage st)).

Definition setColumns `{!Stringify (list ColumnDef)} (st : AppState) (payload : list ColumnDef) : AppState :=
  mkState (rows st) payload (persist_columns payload (localStorage st)).

(** The actions of the [data] slice, and a run of them. *)
Inductive DataAction : Type :=
  | SetRows (payload : list Row)
  | UpdateRow (payload : Row)
  | DeleteRow (payload : string).

Definition dispatch `{!Stringify (list Row)} (st : AppState) (a : DataAction) : AppState :=
  match a with
  | SetRows p => setRows st p
  | UpdateRow p => updateRow st p
  | DeleteRow p => deleteRow st p
  end.

Definition run `{!Stringify (list Row)} (st : AppState) (acts : list DataAction) : AppState :=
  foldl dispatch st acts.

(** A reference encoder for rows after [JSON.stringify], to run the reducers
    on concrete states: strings are quoted with the quote, the backslash and
    the control characters escaped, finite numbers are printed as [String]
    prints them and the infinities as [null], [null] is kept and a key
    holding [undefined] is left out.  Keys come out in the
    order of the map, not in the order of assignment. *)
Definition hex_digit (n : nat) : ascii :=
  match n with
  | 0 => "0" | 1 => "1" | 2 => "2" | 3 => "3" | 4 => "4" | 5 => "5" | 6 => "6"
  | 7 => "7" | 8 => "8" | 9 => "9" | 10 => "a" | 11 => "b" | 12 => "c"
  | 13 => "d" | 14 => "e" | _ => "f"
  end%char%nat.

Definition json_escape_char (c : ascii) : string :=
  let n := nat_of_ascii c in
  if decide (c = Papa.quote) then String "\" (String Papa.quote "")
  else if decide (c = "\"%char) then "\\"
  else if decide (n = 8)%nat then "\b"
  else if decide (n = 9)%nat then "\t"
  else if decide (n = 10)%nat then "\n"
  else if decide (n = 12)%nat then "\f"
  else if decide (n = 13)%nat then "\r"
  else if decide (n < 32)%nat then
    "\u00" +:+ String (hex_digit (n / 16)) (String (hex_digit (n mod 16)) "")
  else String c "".

Fixpoint json_escape (s : string) : string :=
  match s with
  | EmptyString => EmptyString
  | String c s' => json_escape_char c +:+ json_escape s'
  end.

Definition json_string (s : string) : string :=
  String Papa.quote (json_escape s +:+ String Papa.quote "").

Definition json_value (v : value) : string :=
  match v with
  | VNum (Fin k) => number_to_string (Fin k)
  | VStr s => json_string s
  | _ => "null"
  end.

Definition json_row (r : Row) : string :=
  "{" +:+ join "," ((λ kv, json_string kv.1 +:+ ":" +:+ json_value kv.2) <$>
                    filter (λ kv, kv.2 ≠ VUndef) (map_to_list r)) +:+ "}".

Definition json_rows : Stringify (list Row) :=
  λ rs, "[" +:+ join "," (json_row <$> rs) +:+ "]".

End Store.

(** ** App.tsx: the derived view *)
Module View.

Inductive SortDir : Type := asc | desc.

#[global] Instance SortDir_eq_dec : EqDecision SortDir.
Proof. solve_decision. Defined.

(** [Object.values(r)]. *)
Definition Object_values (r : Row) : list value := (map_to_list r).*2.

(** The callback of [rows.filter] for the normalised query [q]. *)
Definition keep_row (q : string) (r : Row) : bool :=
  if bool_decide (q = "") then true
  else existsb (λ v, includes (toLowerCase (to_string v)) q) (Object_values r).

(** The comparator handed to [sort]. *)
Definition compareRows (sortKey : string) (sortDir : SortDir) (a b : Row) : Z :=
  let av := get a sortKey in
  let bv := get b sortKey in
  if strict_eq av bv then 0
  else if loose_null av then (if decide (sortDir = asc) then -1 else 1)
  else if loose_null bv then (if decide (sortDir = asc) then 1 else -1)
  else
    let res := if gt av bv then 1 else -1 in
    if decide (sortDir = asc) then res else - res.

(** The memo [filtered]. *)
Definition filtered (rows : list Row) (search : string) (sortKey : option string)
    (sortDir : SortDir) : list Row :=
  let q := toLowerCase (trim search) in
  let data := filter (λ r, keep_row q r = true) rows in
  match sortKey with
  | Some k => if bool_decide (k = "") then data else sort (compareRows k sortDir) data
  | None => data
  end.

(** The memo [paginated]. *)
Definition paginated (rows : list Row) (search : string) (sortKey : option string)
    (sortDir : SortDir) (page rowsPerPage : Z) : list Row :=
  slice (filtered rows search sortKey sortDir)
        (page * rowsPerPage) ((page + 1) * rowsPerPage).

Record ViewQuery : Type := mkQuery {
  searchText : string;
  sortKey : option string;
  sortDirection : SortDir;
  pageIndex : Z;
  pageSize : Z;
}.

Record ViewResult : Type := mkView {
  items : list Row;
  totalCount : nat;
}.

(** What the component hands to the table body ([paginated]) and to
    [TablePagination] ([count = filtered.length]). *)
Definition computeView (rows : list Row) (q : ViewQuery) : ViewResult :=
  mkView
    (paginated rows (searchText q) (sortKey q) (sortDirection q) (pageIndex q) (pageSize q))
    (length (filtered rows (searchText q) (sortKey q) (sortDirection q))).

End View.

(** ** Vocabulary of the statements *)

(** A parsed record lacks a field when the key is absent or the cell empty. *)
Definition lacks (r : gmap string string) (k : string) : Prop :=
  r !! k = None ∨ r !! k = Some "".

#[global] Instance lacks_dec r k : Decision (lacks r k).
Proof. unfold lacks. apply _. Defined.

(** The error lines expected for a list of parsed records: one per record that
    lacks its name or its email, numbered from one, in record order. *)
Definition expected_errors (records : list (gmap string string)) : list string :=
  mjoin (imap (λ i r,
    if decide (lacks r "name" ∨ lacks r "email")
    then ["Row " +:+ pretty (i + 1)%nat +:+ ":missing name or email"]
    else []) records).

(** LF as a one-character string, for writing CSV texts. *)
Definition nl : string := String Papa.LF "".

(** The ids of a row collection, in order. *)
Definition ids (rows : list Row) : list value := (λ r, get r "id") <$> rows.

(** No two rows share an id, and every row has one. *)
Definition ids_ok (rows : list Row) : Prop :=
  NoDup (ids rows) ∧ Forall (λ r, get r "id" ≠ VUndef) rows.

(** An action that brings no repeated or missing id with it: only [setRows]
    carries a whole collection. *)
Definition action_ok (a : Store.DataAction) : Prop :=
  match a with
  | Store.SetRows p => ids_ok p
  | _ => True
  end.

(** The start state with the built-in snapshots and an empty storage. *)
Definition initial_state : Store.AppState :=
  Store.mkState Store.sampleData Store.defaultColumns ∅.

(** Whether a character occurs in a string. *)
Fixpoint has_char (c : ascii) (s : string) : bool :=
  match s with
  | EmptyString => false
  | String a s' => bool_decide (a = c) || has_char c s'
  end.


(** The characters of a string. *)
Fixpoint chars (s : string) : list ascii :=
  match s with
  | EmptyString => []
  | String c s' => c :: chars s'
  end.

(** The white space of the range, by code: TAB, LF, VT, FF, CR, the space
    and the no-break space. *)
Definition white_codes : list nat := [9; 10; 11; 12; 13; 32; 160]%nat.

Definition white (c : ascii) : Prop := nat_of_ascii c ∈ white_codes.

Definition all_white (s : string) : Prop := Forall white (chars s).

Definition no_white (s : string) : Prop :=
  Forall (λ c, ¬ white c) (chars s).

(** [t] is [s] without the white space at its two ends: [s] is [t] between
    two runs of white space, and [t] neither starts nor ends with any. *)
Definition trimmed_of (s t : string) : Prop :=
  ∃ pre post : string,
    s = pre +:+ t +:+ post ∧ all_white pre ∧ all_white post ∧
    (∀ c t', t = String c t' → ¬ white c) ∧
    (∀ t' c, t = t' +:+ String c "" → ¬ white c).



(** The lower-case form of a character, by code: the letters [A] to [Z] and
    the accented capitals 192 to 222 (215, the multiplication sign, is none)
    go 32 up, every other character stays. *)
Definition lower_code (n : nat) : nat :=
  if decide ((65 ≤ n ∧ n ≤ 90) ∨ (192 ≤ n ∧ n ≤ 222 ∧ n ≠ 215))%nat
  then (n + 32)%nat else n.

(** [t] is [s] in lower case, character by character. *)
Definition lowered_of (s t : string) : Prop :=
  nat_of_ascii <$> chars t
  = (λ c, lower_code (nat_of_ascii c)) <$> chars s.

(** No character of the string has a lower-case form other than itself. *)
Definition no_upper (s : string) : Prop :=
  Forall (λ c, lower_code (nat_of_ascii c) = nat_of_ascii c) (chars s).













(** A key that is no array index. *)
Definition named (k : string) : Prop := Papa.array_index k = None.

#[global] Instance named_dec k : Decision (named k).
Proof. unfold named. apply _. Defined.


(** Two rows whose cells need escaping: a comma, quotes, a line break. *)
Definition rows_to_escape : list Row :=
  [ list_to_map [("id", VStr "1"); ("name", VStr "Doe, Jane");
                 ("note", VStr ("said " +:+ String Papa.quote "hi" +:+ String Papa.quote ""))];
    list_to_map [("id", VStr "2"); ("name", VStr "Bob");
                 ("note", VStr ("two" +:+ nl +:+ "lines"))] ].

(** ** store/index: the store of both slices *)
Module Slices.
Import Store.

(** The actions of the [column] slice. *)
Inductive ColumnAction : Type :=
  | ToggleColumn (payload : string)
  | AddColumn (payload : ColumnDef)
  | SetColumns (payload : list ColumnDef).

(** An action of the store [configureStore] builds from the two slices. *)
Inductive Action : Type :=
  | OnData (a : DataAction)
  | OnColumns (a : ColumnAction).

Definition dispatch_columns `{!Stringify (list ColumnDef)} (st : AppState)
    (a : ColumnAction) : AppState :=
  match a with
  | ToggleColumn p => toggleColumn st p
  | AddColumn p => addColumn st p
  | SetColumns p => setColumns st p
  end.

Definition reducer `{!Stringify (list Row), !Stringify (list ColumnDef)}
    (st : AppState) (a : Action) : AppState :=
  match a with
  | OnData d => dispatch st d
  | OnColumns c => dispatch_columns st c
  end.

Definition run_all `{!Stringify (list Row), !Stringify (list ColumnDef)}
    (st : AppState) (acts : list Action) : AppState :=
  foldl reducer st acts.

(** A reference encoder for columns, the companion of [json_rows]. *)
Definition json_column (c : ColumnDef) : string :=
  "{" +:+ json_string "key" +:+ ":" +:+ json_string (key c) +:+ "," +:+
  json_string "label" +:+ ":" +:+ json_string (label c) +:+ "," +:+
  json_string "visible" +:+ ":" +:+ (if visible c then "true" else "false") +:+ "}".

Definition json_columns : Stringify (list ColumnDef) :=
  λ cs, "[" +:+ join "," (json_column <$> cs) +:+ "]".

End Slices.

(** ** App.tsx: the state of the component and its handlers *)
Module App.
Import Store View.

(** ToBoolean. *)
Definition truthy (v : value) : bool :=
  match v with
  | VUndef | VNull => false
  | VNum x => negb (bool_decide (x = Fin 0))
  | VStr s => negb (bool_decide (s = ""))
  end.

(** [a || b]. *)
Definition or_val (a b : value) : value := if truthy a then a else b.

(** [useState(5)], whose setter is never taken. *)
Definition rowsPerPage : Z := 5.

(** The [useState] cells.  [editingId] is a string or [null]; it receives
    [row.id], whatever that holds. *)
Record UiState : Type := mkUi {
  page : Z;
  search : string;
  manageOpen : bool;
  importErrors : option (list string);
  editingId : value;
  editCache : Row;
  sortKey : option string;
  sortDir : SortDir;
  dragColIndex : option nat;
}.

(** The first render: the initial values of the cells. *)
Definition initial_ui : UiState :=
  mkUi 0 "" false None VNull ∅ None asc None.

(** The store, the cells, and the messages shown by [alert] so far. *)
Record Screen : Type := mkScreen {
  store : AppState;
  ui : UiState;
  alerts : list string;
}.


(** [filtered] and [paginated] as the component computes them. *)
Definition filtered_of (s : Screen) : list Row :=
  filtered (rows (store s)) (search (ui s)) (sortKey (ui s)) (sortDir (ui s)).

Definition paginated_of (s : Screen) : list Row :=
  paginated (rows (store s)) (search (ui s)) (sortKey (ui s)) (sortDir (ui s))
    (page (ui s)) rowsPerPage.

(** A record of the remote list.  [company] and [address] are the [name] and
    the [city] of the nested objects, [None] when the object is missing. *)
Record RemoteUser : Type := mkRemote {
  u_id : value;
  u_name : value;
  u_username : value;
  u_email : value;
  u_phone : value;
  u_website : value;
  u_company : option value;
  u_address : option value;
}.

(** The callback of [data.map] in [fetchUsers].  [draw] is the value of
    [Math.floor(Math.random() * 43)] for this record. *)
Definition seed_row (draw : Z) (i : nat) (u : RemoteUser) : Row :=
  list_to_map
    [ ("id", VStr (to_string (u_id u)));
      ("name", or_val (u_name u)
                 (or_val (u_username u) (VStr ("User " +:+ pretty (i + 1)%nat))));
      ("email", or_val (u_email u)
                  (VStr ("user" +:+ pretty (i + 1)%nat +:+ "@example.com")));
      ("age", VNum (draw + 18));
      ("role", VStr "Viewer");
      ("phone", u_phone u);
      ("website", u_website u);
      ("company", default VUndef (u_company u));
      ("address", VStr (to_string (or_val (default VUndef (u_address u)) (VStr "")))) ].

Definition mapUsers (draw : nat → Z) (data : list RemoteUser) : list Row :=
  imap (λ i u, seed_row (draw i) i u) data.

(** [fetchUsers]: [None] stands for a fetch or a decoding that throws, which
    the handler logs and swallows. *)
Definition fetchUsers `{!Stringify (list Row)} (draw : nat → Z)
    (response : option (list RemoteUser)) (s : Screen) : Screen :=
  match response with
  | Some data => mkScreen (setRows (store s) (mapUsers draw data)) (ui s) (alerts s)
  | None => s
  end.

(** The [onChange] of the search field. *)
Definition handleSearchChange (text : string) (s : Screen) : Screen :=
  let u := ui s in
  mkScreen (store s)
    (mkUi 0 text (manageOpen u) (importErrors u) (editingId u) (editCache u)
       (sortKey u) (sortDir u) (dragColIndex u))
    (alerts s).

(** [onPageChange]. *)
Definition handlePageChange (p : Z) (s : Screen) : Screen :=
  let u := ui s in
  mkScreen (store s)
    (mkUi p (search u) (manageOpen u) (importErrors u) (editingId u) (editCache u)
       (sortKey u) (sortDir u) (dragColIndex u))
    (alerts s).

(** The [reader.onload] callback of [handleImportFile], on the text read. *)
Definition handleImportText `{!Stringify (list Row)} (clock : nat → N)
    (text : string) (s : Screen) : Screen :=
  let u := ui s in
  let res := Csv.parseCSV clock text in
  let errs1 :=
    if bool_decide (Csv.errors res = []) then importErrors u
    else Some (Csv.errors res) in
  mkScreen (setRows (store s) (Csv.data res))
    (mkUi (page u) (search u) false errs1 (editingId u) (editCache u)
       (sortKey u) (sortDir u) (dragColIndex u))
    (alerts s).


(** [handleDoubleClick], and the click on the edit icon, which does the same. *)
Definition handleDoubleClick (row : Row) (s : Screen) : Screen :=
  let u := ui s in
  mkScreen (store s)
    (mkUi (page u) (search u) (manageOpen u) (importErrors u) (get row "id") row
       (sortKey u) (sortDir u) (dragColIndex u))
    (alerts s).

(** The [onChange] of the text field of column [k] in the row being edited. *)
Definition handleCellChange (k text : string) (s : Screen) : Screen :=
  let u := ui s in
  mkScreen (store s)
    (mkUi (page u) (search u) (manageOpen u) (importErrors u) (editingId u)
       (<[k := VStr text]> (editCache u))
       (sortKey u) (sortDir u) (dragColIndex u))
    (alerts s).

Definition saveEdit `{!Stringify (list Row)} (s : Screen) : Screen :=
  let u := ui s in
  if negb (truthy (editingId u)) then s
  else
    let cache := editCache u in
    match to_number (get cache "age") with
    | None => mkScreen (store s) u (alerts s ++ ["Age must be a number"])
    | Some _ =>
        mkScreen (updateRow (store s) cache)
          (mkUi (page u) (search u) (manageOpen u) (importErrors u) VNull (editCache u)
             (sortKey u) (sortDir u) (dragColIndex u))
          (alerts s)
    end.

Definition cancelEdit (s : Screen) : Screen :=
  let u := ui s in
  mkScreen (store s)
    (mkUi (page u) (search u) (manageOpen u) (importErrors u) VNull ∅
       (sortKey u) (sortDir u) (dragColIndex u))
    (alerts s).

Definition handleHeaderSort (k : string) (s : Screen) : Screen :=
  let u := ui s in
  if bool_decide (sortKey u = Some k) then
    mkScreen (store s)
      (mkUi (page u) (search u) (manageOpen u) (importErrors u) (editingId u)
         (editCache u) (sortKey u)
         (if decide (sortDir u = asc) then desc else asc) (dragColIndex u))
      (alerts s)
  else
    mkScreen (store s)
      (mkUi (page u) (search u) (manageOpen u) (importErrors u) (editingId u)
         (editCache u) (Some k) asc (dragColIndex u))
      (alerts s).

Definition onDragStart (index : nat) (s : Screen) : Screen :=
  let u := ui s in
  mkScreen (store s)
    (mkUi (page u) (search u) (manageOpen u) (importErrors u) (editingId u)
       (editCache u) (sortKey u) (sortDir u) (Some index))
    (alerts s).

(** [newCols.splice(dragColIndex, 1)] followed by [newCols.splice(index, 0,
    moved)] on a copy of the columns.  The result is [None] when there is no
    column at [dragColIndex]: the source then stores the entry [undefined],
    which is no column. *)
Definition moved_columns (columns : list ColumnDef) (from to : nat)
    : option (list ColumnDef) :=
  match columns !! from with
  | Some moved =>
      let rest := delete from columns in
      Some (take to rest ++ moved :: drop to rest)
  | None => None
  end.

Definition onDrop `{!Stringify (list ColumnDef)} (index : nat) (s : Screen)
    : option Screen :=
  let u := ui s in
  match dragColIndex u with
  | None => Some s
  | Some from =>
      match moved_columns (columns (store s)) from index with
      | Some newCols =>
          Some (mkScreen (setColumns (store s) newCols)
                  (mkUi (page u) (search u) (manageOpen u) (importErrors u)
                     (editingId u) (editCache u) (sortKey u) (sortDir u) None)
                  (alerts s))
      | None => None
      end
  end.

(** [label.toLowerCase().replace(/\s+/g, "_")]: every run of white space
    becomes one underscore; the class [\s] is the white space [trim] drops.
    [run] tells that the previous character was white space. *)
Fixpoint replace_spaces (run : bool) (s : string) : string :=
  match s with
  | EmptyString => EmptyString
  | String c s' =>
      if is_white c then
        if run then replace_spaces true s' else String "_" (replace_spaces true s')
      else String c (replace_spaces false s')
  end.

(** The click on [Add] in the column dialog; [input] is the value of the
    text field, which the handler clears afterwards. *)
Definition handleAddColumn `{!Stringify (list ColumnDef)} (input : string)
    (s : Screen) : Screen :=
  let label := trim input in
  if bool_decide (label = "") then s
  else
    let key := replace_spaces false (toLowerCase label) in
    mkScreen (addColumn (store s) (mkColumn key label true)) (ui s) (alerts s).

End App.

(** ** Vocabulary of the further statements *)




(** The cache after a series of cell edits, given as pairs of column key and
    text, applied from the left. *)
Definition edited (row : Row) (edits : list (string * string)) : Row :=
  foldl (λ cache e, <[e.1 := VStr e.2]> cache) row edits.

(** The pages [0] to [n - 1] of a screen, one after the other. *)
Definition pages_upto (n : nat) (s : App.Screen) : list Row :=
  mjoin ((λ p : nat, App.paginated_of (App.handlePageChange (Z.of_nat p) s)) <$> seq 0 n).

(** The screen after the row was opened for editing and the edits were typed
    into its cells, one after the other. *)
Definition after_edits (row : Row) (edits : list (string * string))
    (s : App.Screen) : App.Screen :=
  foldl (λ s e, App.handleCellChange e.1 e.2 s) (App.handleDoubleClick row s) edits.

(** Seven rows with the ids [1] to [7], to fill more than one page. *)
Definition seven_rows : list Row :=
  (λ n : nat, ({[ "id" := VStr (pretty n) ]} : Row)) <$> seq 1 7.

(* ================================================================== *)
(** * Part II: properties                                               *)
(* ================================================================== *)

(** ** Strings *)

Lemma app_nil_l_str (s : string) : "" +:+ s = s.
Proof. reflexivity. Qed.

Lemma app_cons_str (c : ascii) (s t : string) : String c s +:+ t = String c (s +:+ t).
Proof. reflexivity. Qed.

Lemma app_nil_r_str (s : string) : s +:+ "" = s.
Proof. induction s as [|c s IH]; [done|]. by rewrite app_cons_str, IH. Qed.


Lemma pretty_N_go_no_dash (x : N) (s : string) :
  has_char "-" s = false → has_char "-" (pretty_N_go x s) = false.
Proof.
  revert s. induction (N.lt_wf_0 x) as [x _ IH]; intros s Hs.
  assert (x = 0 ∨ 0 < x)%N as [->|Hpos] by lia.
  - by rewrite pretty_N_go_0.
  - rewrite pretty_N_go_step by done. apply IH.
    { by apply N.div_lt. }
    cbn [has_char]. rewrite Hs, orb_false_r.
    apply bool_decide_eq_false. unfold pretty_N_char. by repeat case_match.
Qed.

Lemma pretty_N_no_dash (n : N) : has_char "-" (pretty n) = false.
Proof.
  unfold pretty, pretty_N. case_decide; [done|]. by apply pretty_N_go_no_dash.
Qed.

Lemma pretty_nat_no_dash (n : nat) : has_char "-" (pretty n) = false.
Proof. apply pretty_N_no_dash. Qed.

(** A text is cut in one way only at its first dash. *)
Lemma app_dash_inj (a a' b b' : string) :
  has_char "-" a = false → has_char "-" a' = false →
  a +:+ "-" +:+ b = a' +:+ "-" +:+ b' → a = a' ∧ b = b'.
Proof.
  revert a'. induction a as [|c a IH]; intros [|c' a'] Ha Ha' Heq;
    rewrite ?app_nil_l_str, ?app_cons_str in Heq; cbn [has_char] in *.
  - by simplify_eq.
  - injection Heq as <- _. by rewrite bool_decide_eq_true_2 in Ha'.
  - injection Heq as -> _. by rewrite bool_decide_eq_true_2 in Ha.
  - injection Heq as <- Heq. apply orb_false_elim in Ha as [_ Ha].
    apply orb_false_elim in Ha' as [_ Ha'].
    destruct (IH a' Ha Ha' Heq) as [-> ->]. done.
Qed.

(** ** utils/csv: reconciliation of the parsed records *)
Section Reconcile.
Import Papa Csv.
Variable clock : nat → N.

Lemma present_false_lacks (r : gmap string string) k :
  present (r !! k) = false ↔ lacks r k.
Proof.
  unfold present, lacks. destruct (r !! k) as [s|]; [|by split; [left|]].
  destruct (decide (s = "")) as [->|Hne]; simpl.
  - by split; [right|].
  - rewrite bool_decide_eq_false_2 by done.
    split; [done|]. intros [?|?]; congruence.
Qed.

Lemma map_rows_fst rs : ∀ i errs,
  (map_rows clock i rs errs).1 =
  imap (λ j r, build_row (clock (i + j)%nat) (i + j)%nat r) rs.
Proof.
  induction rs as [|r rs IH]; intros i errs; [done|].
  cbn [map_rows].
  match goal with |- context [map_rows clock (S i) rs ?e] =>
    specialize (IH (S i) e); destruct (map_rows clock (S i) rs e) as [rows errs2]
  end.
  cbn in *. rewrite Nat.add_0_r. f_equal. rewrite IH.
  apply imap_ext. intros j x _. cbn. by rewrite Nat.add_succ_r.
Qed.

Lemma map_rows_snd rs : ∀ i errs,
  (map_rows clock i rs errs).2 =
  errs ++ mjoin (imap (λ j r,
    if decide (lacks r "name" ∨ lacks r "email")
    then [missing_msg (i + j)] else []) rs).
Proof.
  induction rs as [|r rs IH]; intros i errs; cbn [map_rows].
  { cbn. by rewrite app_nil_r. }
  match goal with |- context [map_rows clock (S i) rs ?e] =>
    specialize (IH (S i) e); destruct (map_rows clock (S i) rs e) as [rows errs2]
  end.
  cbn in *. rewrite Nat.add_0_r. subst errs2.
  assert (Hmiss : (negb (present (r !! "name")) || negb (present (r !! "email")))
                  = bool_decide (lacks r "name" ∨ lacks r "email")).
  { destruct (present (r !! "name")) eqn:Hn, (present (r !! "email")) eqn:He; cbn;
      symmetry; first [ apply bool_decide_eq_true | apply bool_decide_eq_false ];
      rewrite <- !present_false_lacks; rewrite ?Hn, ?He; intuition congruence. }
  rewrite Hmiss.
  assert (Hext : imap ((λ j r0, if decide (lacks r0 "name" ∨ lacks r0 "email")
                                 then [missing_msg (i + j)] else []) ∘ S) rs
               = imap (λ j r0, if decide (lacks r0 "name" ∨ lacks r0 "email")
                                 then [missing_msg (S i + j)] else []) rs).
  { apply imap_ext. intros j x _. cbn. by rewrite Nat.add_succ_r. }
  rewrite Hext.
  destruct (decide (lacks r "name" ∨ lacks r "email")).
  - rewrite bool_decide_eq_true_2 by done. by rewrite <- app_assoc.
  - by rewrite bool_decide_eq_false_2 by done.
Qed.

Lemma reconcile_data records :
  data (reconcile clock records) = imap (λ i r, build_row (clock i) i r) records.
Proof.
  unfold reconcile. pose proof (map_rows_fst records 0 []) as H.
  destruct (map_rows clock 0 records []) as [rows errs]. exact H.
Qed.

Lemma reconcile_errors records :
  errors (reconcile clock records) = expected_errors records.
Proof.
  unfold reconcile. pose proof (map_rows_snd records 0 []) as H.
  destruct (map_rows clock 0 records []) as [rows errs]. exact H.
Qed.

Lemma reconcile_lookup records i :
  data (reconcile clock records) !! i = build_row (clock i) i <$> records !! i.
Proof. rewrite reconcile_data. by rewrite list_lookup_imap. Qed.

Lemma build_row_raw now i (r : gmap string string) k s :
  r !! k = Some s → build_row now i r !! k = Some (VStr s).
Proof.
  intros H. unfold build_row. apply lookup_union_Some_l.
  by rewrite lookup_fmap, H.
Qed.

Lemma build_row_default now i (r : gmap string string) k :
  r !! k = None →
  build_row now i r !! k =
  (list_to_map
     [ ("id", VStr (fresh_id now i)); ("name", VStr ""); ("email", VStr "");
       ("age", VNum 0); ("role", VStr "Viewer") ] : Row) !! k.
Proof.
  intros H. unfold build_row. rewrite lookup_union_r by (by rewrite lookup_fmap, H).
  cbn [list_to_map foldr uncurry fst snd].
  assert (Hstep : ∀ (k0 : string) (v d : value) (m1 m2 : Row),
            (k = k0 → v = d) → m1 !! k = m2 !! k →
            <[k0:=v]> m1 !! k = <[k0:=d]> m2 !! k).
  { intros k0 v d m1 m2 Hv Hm. destruct (decide (k0 = k)) as [->|Hne].
    - rewrite !lookup_insert_eq. f_equal. by apply Hv.
    - by rewrite !lookup_insert_ne by done. }
  repeat (apply Hstep; [intros ->; unfold or_else; by rewrite H|]).
  done.
Qed.

End Reconcile.

Section ParseCSV.
Import Papa Csv.

(** C1.  [parseCSV] is [reconcile] applied to the records of the library.  For
    the record at any position, the constructed row at that position holds,
    under every key of the record, exactly the raw cell, empty or not, because
    the record is spread over the defaults; so an empty raw [id] replaces the
    id that was just synthesized.  A key the record does not have keeps its
    default: the synthesized id, the empty name and email, age [0], role
    ["Viewer"]. *)
Theorem parseCSV_raw_fields_win (clock : nat → N) (records : list (gmap string string))
    (i : nat) (r : gmap string string) :
  records !! i = Some r →
  ∃ row : Row,
    data (reconcile clock records) !! i = Some row ∧
    (∀ k s, r !! k = Some s → row !! k = Some (VStr s)) ∧
    (r !! "id" = Some "" → row !! "id" = Some (VStr "")) ∧
    (r !! "id" = None →
       row !! "id" = Some (VStr (pretty (clock i) +:+ "-" +:+ pretty i))) ∧
    (r !! "name" = None → row !! "name" = Some (VStr "")) ∧
    (r !! "email" = None → row !! "email" = Some (VStr "")) ∧
    (r !! "age" = None → row !! "age" = Some (VNum 0)) ∧
    (r !! "role" = None → row !! "role" = Some (VStr "Viewer")).
Proof.
  intros Hr. exists (build_row (clock i) i r).
  split; [by rewrite reconcile_lookup, Hr|].
  split; [intros k s; apply build_row_raw|].
  split; [apply build_row_raw|].
  repeat split; intros H; by rewrite build_row_default.
Qed.

(** The instance of C1 at the text [id,name,email / ,Al,a@x.com]: the only
    record has an empty [id] cell, and the row built from it has the empty id. *)
Lemma parseCSV_raw_fields_win_witness :
  Papa.parse ("id,name,email" +:+ nl +:+ ",Al,a@x.com" +:+ nl) !! 0%nat
    = Some (list_to_map [("id", ""); ("name", "Al"); ("email", "a@x.com")]) ∧
  ∃ row : Row,
    data (parseCSV (λ _, 1700000000000%N)
            ("id,name,email" +:+ nl +:+ ",Al,a@x.com" +:+ nl)) !! 0%nat = Some row ∧
    row !! "id" = Some (VStr "") ∧ row !! "name" = Some (VStr "Al") ∧
    row !! "age" = Some (VNum 0).
Proof.
  assert (Hrec : Papa.parse ("id,name,email" +:+ nl +:+ ",Al,a@x.com" +:+ nl) !! 0%nat
    = Some (list_to_map [("id", ""); ("name", "Al"); ("email", "a@x.com")]))
    by (vm_compute; reflexivity).
  split; [exact Hrec|].
  destruct (parseCSV_raw_fields_win (λ _, 1700000000000%N) _ 0 _ Hrec)
    as (row & Hrow & Hraw & _ & _ & _ & _ & Hage & _).
  exists row. split; [exact Hrow|].
  split; [apply Hraw; vm_compute; reflexivity|].
  split; [apply Hraw; vm_compute; reflexivity|].
  apply Hage. vm_compute; reflexivity.
Defined.

(** C4.  Whatever records the library returns, [parseCSV] builds one row per
    record and pushes one error line for each record that lacks its name or
    its email, numbered from one in record order; the records are the lines of
    the text that are not empty, the header apart.  On the text
    [name,email / ,bob@x.com] this is one row and the one line [Row 1:...]. *)
Theorem parseCSV_keeps_rows_and_reports (clock : nat → N) :
  (∀ records : list (gmap string string),
     length (data (reconcile clock records)) = length records ∧
     errors (reconcile clock records) = expected_errors records) ∧
  (∀ text : string,
     length (data (parseCSV clock text)) =
       Nat.pred (length (filter (λ l, is_empty_line l = false) (tokenize AtStart text))) ∧
     errors (parseCSV clock text) = expected_errors (Papa.parse text)) ∧
  parseCSV clock ("name,email" +:+ nl +:+ ",bob@x.com" +:+ nl) =
    mkResult
      [ list_to_map
          [ ("id", VStr (pretty (clock 0%nat) +:+ "-0")); ("name", VStr "");
            ("email", VStr "bob@x.com"); ("age", VNum 0); ("role", VStr "Viewer") ] ]
      [ "Row 1:missing name or email" ].
Proof.
  split; [|split].
  - intros records. split; [|apply reconcile_errors].
    rewrite reconcile_data. apply length_imap.
  - intros text. split; [|apply reconcile_errors].
    unfold parseCSV. rewrite reconcile_data, length_imap. unfold Papa.parse.
    destruct (filter _ (tokenize AtStart text)) as [|h t]; [done|].
    cbn. by rewrite length_fmap.
  - unfold parseCSV.
    assert (Hp : Papa.parse ("name,email" +:+ nl +:+ ",bob@x.com" +:+ nl)
                 = [list_to_map [("name", ""); ("email", "bob@x.com")]])
      by (vm_compute; reflexivity).
    rewrite Hp. vm_compute. reflexivity.
Qed.

End ParseCSV.

(** ** Array helpers *)
Section ArrayHelpers.
Context {A : Type}.
Implicit Types (p : A → bool) (l : list A).

Lemma findIndex_bounds p l : -1 ≤ findIndex p l < Z.of_nat (length l).
Proof.
  induction l as [|x l IH]; cbn [findIndex length]; [lia|].
  destruct (p x); [lia|]. destruct (Z.ltb_spec (findIndex p l) 0); lia.
Qed.

Lemma findIndex_none p l :
  findIndex p l = -1 ↔ ∀ x, x ∈ l → p x = false.
Proof.
  induction l as [|x l IH]; cbn [findIndex].
  { split; [intros _ x Hx; by apply elem_of_nil in Hx|done]. }
  destruct (p x) eqn:Hpx.
  { split; [done|]. intros H. specialize (H x (list_elem_of_here _ _)). congruence. }
  pose proof (findIndex_bounds p l) as Hb.
  destruct (Z.ltb_spec (findIndex p l) 0) as [Hlt|Hge].
  - assert (Hm : findIndex p l = -1) by lia.
    split; [|done]. intros _ y [->|Hy]%elem_of_cons; [done|]. by apply IH.
  - split; [lia|]. intros H. exfalso.
    assert (findIndex p l = -1); [|lia].
    apply IH. intros y Hy. apply H. by right.
Qed.

Lemma findIndex_first p l (i : nat) :
  findIndex p l = Z.of_nat i ↔
  (∃ x, l !! i = Some x ∧ p x = true) ∧
  (∀ j y, (j < i)%nat → l !! j = Some y → p y = false).
Proof.
  revert i. induction l as [|x l IH]; intros i; cbn [findIndex].
  { split; [lia|]. by intros [(y & Hy & _) _]. }
  destruct (p x) eqn:Hpx.
  - split.
    + intros Hi. assert (i = 0%nat) as -> by lia.
      split; [by exists x|]. intros j y Hj. lia.
    + intros [_ Hfirst]. destruct i as [|i]; [done|].
      specialize (Hfirst 0%nat x). cbn in Hfirst.
      assert (false = true); [|done]. rewrite <- Hpx. symmetry. apply Hfirst; [lia|done].
  - pose proof (findIndex_bounds p l) as Hb.
    destruct (Z.ltb_spec (findIndex p l) 0) as [Hlt|Hge].
    + split; [lia|]. intros [(y & Hy & Hpy) Hfirst].
      destruct i as [|i]; cbn in Hy; [congruence|].
      assert (Hnone : findIndex p l = -1) by lia.
      rewrite findIndex_none in Hnone.
      assert (p y = false) by (apply Hnone; by eapply list_elem_of_lookup_2).
      congruence.
    + destruct i as [|i].
      * split; [lia|]. intros [(y & Hy & Hpy) _]. cbn in Hy. congruence.
      * specialize (IH i). split.
        -- intros Hi. assert (Hi' : findIndex p l = Z.of_nat i) by lia.
           apply IH in Hi' as [Hex Hfirst]. split; [done|].
           intros [|j] y Hj Hy; cbn in Hy; [congruence|].
           apply (Hfirst j); [lia|done].
        -- intros [Hex Hfirst].
           assert (findIndex p l = Z.of_nat i); [|lia].
           apply IH. split; [done|].
           intros j y Hj Hy. apply (Hfirst (S j)); [lia|done].
Qed.

Lemma find_ref_none p l :
  find_ref p l = None ↔ ∀ x, x ∈ l → p x = false.
Proof.
  induction l as [|x l IH]; cbn [find_ref].
  { split; [intros _ x Hx; by apply elem_of_nil in Hx|done]. }
  destruct (p x) eqn:Hpx.
  { split; [done|]. intros H. specialize (H x (list_elem_of_here _ _)). congruence. }
  rewrite fmap_None, IH. split.
  - intros H y [->|Hy]%elem_of_cons; auto.
  - intros H y Hy. apply H. by right.
Qed.

Lemma find_ref_first p l (i : nat) :
  find_ref p l = Some i ↔
  (∃ x, l !! i = Some x ∧ p x = true) ∧
  (∀ j y, (j < i)%nat → l !! j = Some y → p y = false).
Proof.
  revert i. induction l as [|x l IH]; intros i; cbn [find_ref].
  { split; [done|]. by intros [(y & Hy & _) _]. }
  destruct (p x) eqn:Hpx.
  - split.
    + intros [= <-]. split; [by exists x|]. intros j y Hj. lia.
    + intros [_ Hfirst]. destruct i as [|i]; [done|].
      specialize (Hfirst 0%nat x). cbn in Hfirst.
      assert (false = true); [|done]. rewrite <- Hpx. symmetry. apply Hfirst; [lia|done].
  - rewrite fmap_Some. split.
    + intros (i' & Hi' & ->). apply IH in Hi' as [Hex Hfirst]. split; [done|].
      intros [|j] y Hj Hy; cbn in Hy; [congruence|].
      apply (Hfirst j); [lia|done].
    + intros [(y & Hy & Hpy) Hfirst]. destruct i as [|i]; cbn in Hy; [congruence|].
      exists i. split; [|done]. apply IH. split; [by exists y|].
      intros j z Hj Hz. apply (Hfirst (S j)); [lia|done].
Qed.

End ArrayHelpers.

Lemma strict_eq_true a b : strict_eq a b = true ↔ a = b.
Proof. unfold strict_eq. apply bool_decide_eq_true. Qed.

Lemma strict_eq_false a b : strict_eq a b = false ↔ a ≠ b.
Proof. unfold strict_eq. apply bool_decide_eq_false. Qed.

(** ** store/index: the [data] slice *)
Section DataSlice.
Import Store.
Context `{!Stringify (list Row)}.
Implicit Types (st : AppState) (payload : Row).

Lemma updateRow_rows_miss st payload :
  (∀ r, r ∈ rows st → get r "id" ≠ get payload "id") →
  rows (updateRow st payload) = rows st.
Proof.
  intros Hmiss. unfold updateRow. cbn [rows].
  assert (Hidx : findIndex (λ r, strict_eq (get r "id") (get payload "id")) (rows st) = -1).
  { apply findIndex_none. intros r Hr. apply strict_eq_false. by apply Hmiss. }
  by rewrite Hidx.
Qed.

Lemma updateRow_rows_hit st payload (i : nat) r :
  rows st !! i = Some r →
  get r "id" = get payload "id" →
  (∀ j r', (j < i)%nat → rows st !! j = Some r' → get r' "id" ≠ get payload "id") →
  rows (updateRow st payload) = <[i := payload]> (rows st).
Proof.
  intros Hi Hid Hfirst. unfold updateRow. cbn [rows].
  assert (Hidx : findIndex (λ r, strict_eq (get r "id") (get payload "id")) (rows st)
                 = Z.of_nat i).
  { apply findIndex_first. split.
    - exists r. split; [done|]. by apply strict_eq_true.
    - intros j y Hj Hy. apply strict_eq_false. by eapply Hfirst. }
  rewrite Hidx. destruct (Z.leb_spec 0 (Z.of_nat i)); [|lia].
  by rewrite Nat2Z.id.
Qed.

(** Either no row has the id of the payload and the rows stay as they are,
    or the rows are updated at the first position that has it. *)
Lemma updateRow_cases st payload :
  ((∀ r, r ∈ rows st → get r "id" ≠ get payload "id") ∧
   rows (updateRow st payload) = rows st) ∨
  (∃ (i : nat) r, rows st !! i = Some r ∧ get r "id" = get payload "id" ∧
     rows (updateRow st payload) = <[i := payload]> (rows st)).
Proof.
  pose proof (findIndex_bounds (λ r, strict_eq (get r "id") (get payload "id")) (rows st)) as Hb.
  destruct (decide (findIndex (λ r, strict_eq (get r "id") (get payload "id")) (rows st) = -1))
    as [Hm|Hm].
  - left. assert (Hall : ∀ r, r ∈ rows st → get r "id" ≠ get payload "id").
    { intros r Hr. apply strict_eq_false. revert r Hr. by apply findIndex_none. }
    split; [done|]. by apply updateRow_rows_miss.
  - right.
    assert (Hi : findIndex (λ r, strict_eq (get r "id") (get payload "id")) (rows st)
                 = Z.of_nat (Z.to_nat (findIndex (λ r, strict_eq (get r "id") (get payload "id")) (rows st))))
      by lia.
    apply findIndex_first in Hi as [(r & Hr & Hp) Hfirst].
    eexists _, r. split; [exact Hr|]. apply strict_eq_true in Hp. split; [done|].
    eapply updateRow_rows_hit; [exact Hr|done|].
    intros j r' Hj Hr'. apply strict_eq_false. by eapply Hfirst.
Qed.

Lemma updateRow_persists st payload :
  localStorage (updateRow st payload) !! "table_rows"
  = Some (JSON_stringify (rows (updateRow st payload))).
Proof. unfold updateRow, persist_rows. cbn. apply lookup_insert_eq. Qed.

(** C6.  [updateRow] with a payload whose id no stored row has leaves the rows
    as they are: nothing is added and nothing fails.  When a row has the id,
    the first such row is replaced by the payload as a whole, at its position:
    the length and every other position are unchanged.  In both cases the rows
    that result are written to the storage under [table_rows], the other keys
    of the storage and the columns are untouched.  The last part runs the
    reducer on the sample rows. *)
Theorem updateRow_replaces_in_place st payload :
  ((∀ r, r ∈ rows st → get r "id" ≠ get payload "id") →
     rows (updateRow st payload) = rows st) ∧
  (∀ (i : nat) r,
     rows st !! i = Some r →
     get r "id" = get payload "id" →
     (∀ j r', (j < i)%nat → rows st !! j = Some r' → get r' "id" ≠ get payload "id") →
     rows (updateRow st payload) !! i = Some payload ∧
     length (rows (updateRow st payload)) = length (rows st) ∧
     (∀ j, j ≠ i → rows (updateRow st payload) !! j = rows st !! j)) ∧
  localStorage (updateRow st payload) !! "table_rows"
    = Some (JSON_stringify (rows (updateRow st payload))) ∧
  (∀ k, k ≠ "table_rows" →
     localStorage (updateRow st payload) !! k = localStorage st !! k) ∧
  columns (updateRow st payload) = columns st ∧
  rows (updateRow initial_state
          (list_to_map [("id", VStr "2"); ("name", VStr "Jane")]))
    = [ list_to_map [("id", VStr "1"); ("name", VStr "Alice");
                     ("email", VStr "alice@example.com"); ("age", VNum 27);
                     ("role", VStr "Admin")];
        list_to_map [("id", VStr "2"); ("name", VStr "Jane")];
        list_to_map [("id", VStr "3"); ("name", VStr "Doby");
                     ("email", VStr "doby@example.com"); ("age", VNum 29);
                     ("role", VStr "Operations")] ] ∧
  rows (updateRow initial_state
          (list_to_map [("id", VStr "9"); ("name", VStr "Jane")]))
    = sampleData.
Proof.
  split; [apply updateRow_rows_miss|].
  split.
  { intros i r Hi Hid Hfirst.
    rewrite (updateRow_rows_hit st payload i r Hi Hid Hfirst).
    split; [apply list_lookup_insert_eq; by eapply lookup_lt_Some|].
    split; [apply length_insert|].
    intros j Hj. by apply list_lookup_insert_ne. }
  split; [apply updateRow_persists|].
  split.
  { intros k Hk. unfold updateRow, persist_rows. cbn. by apply lookup_insert_ne. }
  split; [done|].
  split; vm_compute; reflexivity.
Qed.

Lemma deleteRow_rows st (id : string) :
  rows (deleteRow st id) = filter (λ r, get r "id" ≠ VStr id) (rows st).
Proof.
  unfold deleteRow. cbn [rows]. apply list_filter_iff. intros r.
  apply strict_eq_false.
Qed.

(** C7.  [deleteRow] keeps exactly the rows whose id is not the given one, in
    their order; when no row has the id the rows stay as they are; and
    deleting the same id a second time gives the very state the first deletion
    gave, storage included.  The rows that result are written to the storage
    under [table_rows].  Deleting the id [2] from the sample rows leaves the
    rows with the ids [1] and [3]. *)
Theorem deleteRow_idempotent st (id : string) :
  (∀ r, r ∈ rows (deleteRow st id) ↔ r ∈ rows st ∧ get r "id" ≠ VStr id) ∧
  rows (deleteRow st id) `sublist_of` rows st ∧
  ((∀ r, r ∈ rows st → get r "id" ≠ VStr id) → rows (deleteRow st id) = rows st) ∧
  deleteRow (deleteRow st id) id = deleteRow st id ∧
  localStorage (deleteRow st id) !! "table_rows"
    = Some (JSON_stringify (rows (deleteRow st id))) ∧
  columns (deleteRow st id) = columns st ∧
  ids (rows (deleteRow initial_state "2")) = [VStr "1"; VStr "3"].
Proof.
  split.
  { intros r. rewrite deleteRow_rows, list_elem_of_filter. tauto. }
  split.
  { rewrite deleteRow_rows. apply sublist_filter. }
  split.
  { intros Hall. rewrite deleteRow_rows.
    induction (rows st) as [|x l IH]; [done|].
    rewrite filter_cons_True by (apply Hall; by left).
    f_equal. apply IH. intros r Hr. apply Hall. by right. }
  split.
  { assert (Hrows : rows (deleteRow (deleteRow st id) id) = rows (deleteRow st id)).
    { rewrite (deleteRow_rows (deleteRow st id)), deleteRow_rows.
      rewrite list_filter_filter. apply list_filter_iff. tauto. }
    unfold deleteRow at 1. fold (rows (deleteRow (deleteRow st id) id)) in *.
    cbn [rows columns localStorage] in *.
    unfold deleteRow in Hrows at 1. cbn [rows] in Hrows. rewrite Hrows.
    unfold deleteRow, persist_rows. cbn [rows columns localStorage].
    f_equal. apply insert_insert_eq. }
  split; [unfold deleteRow, persist_rows; cbn; apply lookup_insert_eq|].
  split; [done|]. vm_compute. reflexivity.
Qed.

End DataSlice.

(** ** store/index: the [column] slice *)
Section ColumnSlice.
Import Store.
Context `{!Stringify (list ColumnDef)}.
Implicit Types (st : AppState) (k : string).

Lemma flip_visible_involutive c : flip_visible (flip_visible c) = c.
Proof. destruct c as [ky lb vs]. unfold flip_visible. cbn. by rewrite negb_involutive. Qed.

Lemma toggleColumn_cases st k :
  ((∀ c, c ∈ columns st → key c ≠ k) ∧ columns (toggleColumn st k) = columns st) ∨
  (∃ (i : nat) c, columns st !! i = Some c ∧ key c = k ∧
     (∀ j d, (j < i)%nat → columns st !! j = Some d → key d ≠ k) ∧
     columns (toggleColumn st k) = alter flip_visible i (columns st)).
Proof.
  unfold toggleColumn. cbn [columns].
  destruct (find_ref (λ col, bool_decide (key col = k)) (columns st)) as [i|] eqn:Hfind.
  - right. apply find_ref_first in Hfind as [(c & Hc & Hk) Hfirst].
    exists i, c. apply bool_decide_eq_true in Hk.
    split; [done|]. split; [done|]. split; [|done].
    intros j d Hj Hd. eapply bool_decide_eq_false, Hfirst; eauto.
  - left. split; [|done]. intros c Hc.
    eapply bool_decide_eq_false. revert c Hc. by apply find_ref_none.
Qed.

Lemma find_ref_alter_flip k (cols : list ColumnDef) i :
  find_ref (λ col, bool_decide (key col = k)) (alter flip_visible i cols)
  = find_ref (λ col, bool_decide (key col = k)) cols.
Proof.
  revert i. induction cols as [|c cols IH]; intros i; [done|].
  destruct i as [|i]; cbn [alter list_alter find_ref].
  - by destruct c.
  - by rewrite IH.
Qed.

(** C10.  [toggleColumn] keeps the number and the order of the columns and the
    key and label of every column; a column whose [visible] flag differs
    afterwards has the given key and is the first with it, and that first
    column is indeed flipped; when no column has the key the list is the same;
    toggling twice gives back the list one started from.  The rows are not
    touched and the columns that result are written to the storage.  On the
    default columns, toggling [age] hides that column and no other. *)
Theorem toggleColumn_frame st k :
  length (columns (toggleColumn st k)) = length (columns st) ∧
  (∀ (i : nat) c, columns st !! i = Some c →
     ∃ c', columns (toggleColumn st k) !! i = Some c' ∧
       key c' = key c ∧ label c' = label c ∧
       (visible c' ≠ visible c →
          key c = k ∧ ∀ j d, (j < i)%nat → columns st !! j = Some d → key d ≠ k)) ∧
  (∀ (i : nat) c, columns st !! i = Some c → key c = k →
     (∀ j d, (j < i)%nat → columns st !! j = Some d → key d ≠ k) →
     columns (toggleColumn st k) !! i
       = Some (mkColumn (key c) (label c) (negb (visible c)))) ∧
  ((∀ c, c ∈ columns st → key c ≠ k) → columns (toggleColumn st k) = columns st) ∧
  columns (toggleColumn (toggleColumn st k) k) = columns st ∧
  rows (toggleColumn st k) = rows st ∧
  localStorage (toggleColumn st k) !! "table_columns"
    = Some (JSON_stringify (columns (toggleColumn st k))) ∧
  columns (toggleColumn initial_state "age")
    = [ mkColumn "name" "Name" true; mkColumn "email" "Email" true;
        mkColumn "age" "Age" false; mkColumn "role" "Role" true ].
Proof.
  split.
  { destruct (toggleColumn_cases st k) as [[_ ->]|(i & c & _ & _ & _ & ->)];
      [done|apply length_alter]. }
  split.
  { intros i c Hc.
    destruct (toggleColumn_cases st k) as [[_ ->]|(i0 & c0 & Hc0 & Hk & Hfirst & ->)].
    { exists c. by repeat split. }
    destruct (decide (i0 = i)) as [->|Hne].
    - exists (flip_visible c). rewrite list_lookup_alter_eq, Hc.
      split; [done|]. split; [done|]. split; [done|].
      intros _. by simplify_eq.
    - exists c. rewrite list_lookup_alter_ne by done. by repeat split. }
  split.
  { intros i c Hc Hk Hfirst. unfold toggleColumn. cbn [columns].
    assert (Hfind : find_ref (λ col, bool_decide (key col = k)) (columns st) = Some i).
    { apply find_ref_first. split.
      - exists c. split; [done|]. by apply bool_decide_eq_true.
      - intros j d Hj Hd. apply bool_decide_eq_false. by eapply Hfirst. }
    rewrite Hfind, list_lookup_alter_eq, Hc. done. }
  split.
  { intros Hnone. destruct (toggleColumn_cases st k) as [[_ ->]|(i & c & Hc & Hk & _)];
      [done|]. exfalso. eapply Hnone; [|exact Hk]. by eapply list_elem_of_lookup_2. }
  split.
  { unfold toggleColumn at 1. cbn [columns].
    unfold toggleColumn. cbn [columns].
    destruct (find_ref (λ col, bool_decide (key col = k)) (columns st)) as [i|] eqn:Hfind.
    - rewrite find_ref_alter_flip, Hfind, list_alter_alter_eq.
      apply list_alter_id. intros c. apply flip_visible_involutive.
    - by rewrite Hfind. }
  split; [done|].
  split; [unfold toggleColumn, persist_columns; cbn; apply lookup_insert_eq|].
  vm_compute. reflexivity.
Qed.

End ColumnSlice.

(** ** Ids across import, update and delete *)
Section Ids.
Import Papa Csv Store.
Context `{!Stringify (list Row)}.

Lemma fresh_id_inj (clock : nat → N) (i j : nat) :
  fresh_id (clock i) i = fresh_id (clock j) j → i = j.
Proof.
  unfold fresh_id. intros Heq.
  apply app_dash_inj in Heq as [_ Heq]; try apply pretty_N_no_dash.
  by apply (inj pretty) in Heq.
Qed.

Lemma build_row_id now i (r : gmap string string) :
  get (build_row now i r) "id"
  = VStr (match r !! "id" with Some s => s | None => fresh_id now i end).
Proof.
  unfold get. destruct (r !! "id") as [s|] eqn:Hid.
  - by rewrite (build_row_raw _ _ _ _ _ Hid).
  - by rewrite (build_row_default _ _ _ _ Hid).
Qed.

Lemma reconcile_ids clock records :
  ids (data (reconcile clock records))
  = imap (λ i r, VStr (match r !! "id" with
                       | Some s => s
                       | None => fresh_id (clock i) i
                       end)) records.
Proof.
  unfold ids. rewrite reconcile_data, fmap_imap. apply imap_ext.
  intros i r _. cbn. apply build_row_id.
Qed.

Lemma reconcile_ids_defined clock records :
  Forall (λ row, ∃ s, get row "id" = VStr s) (data (reconcile clock records)).
Proof.
  apply Forall_lookup. intros i row. rewrite reconcile_lookup.
  destruct (records !! i) as [r|]; [|done]. intros [= <-].
  rewrite build_row_id. eauto.
Qed.

Lemma ids_ok_of_parts (rs : list Row) :
  NoDup (ids rs) → Forall (λ row, ∃ s, get row "id" = VStr s) rs → ids_ok rs.
Proof.
  intros Hnd Hdef. split; [done|].
  eapply Forall_impl; [exact Hdef|]. intros row [s Hs]. by rewrite Hs.
Qed.

Lemma updateRow_ids_ok st payload :
  ids_ok (rows st) → ids_ok (rows (updateRow st payload)).
Proof.
  intros [Hnd Hdef].
  destruct (updateRow_cases st payload) as [[_ ->]|(i & r & Hr & Hid & ->)]; [done|].
  split.
  - unfold ids in *. rewrite list_fmap_insert, list_insert_id; [done|].
    by rewrite list_lookup_fmap, Hr, <- Hid.
  - apply Forall_insert; [done|]. rewrite <- Hid.
    by eapply (Forall_lookup_1 _ _ _ _ Hdef).
Qed.

Lemma deleteRow_ids_ok st (id : string) :
  ids_ok (rows st) → ids_ok (rows (deleteRow st id)).
Proof.
  intros [Hnd Hdef]. rewrite deleteRow_rows. split.
  - eapply sublist_NoDup; [exact Hnd|]. apply fmap_sublist, sublist_filter.
  - apply Forall_forall. intros r [_ Hr]%list_elem_of_filter.
    by eapply Forall_forall in Hdef.
Qed.

Lemma run_ids_ok (acts : list DataAction) : ∀ st,
  ids_ok (rows st) → Forall action_ok acts → ids_ok (rows (run st acts)).
Proof.
  induction acts as [|a acts IH]; intros st Hst Hacts; [done|].
  apply Forall_cons in Hacts as [Ha Hacts].
  unfold run. cbn [foldl]. apply IH; [|done].
  destruct a as [p|p|p]; cbn [dispatch].
  - exact Ha.
  - by apply updateRow_ids_ok.
  - by apply deleteRow_ids_ok.
Qed.

Lemma sampleData_ids_ok : ids_ok sampleData.
Proof.
  split.
  - assert (Hids : ids sampleData = [VStr "1"; VStr "2"; VStr "3"])
      by (vm_compute; reflexivity).
    rewrite Hids. apply (bool_decide_unpack _). by vm_compute.
  - repeat (apply Forall_cons; split; [by vm_compute|]). apply Forall_nil_2.
Qed.

(** C2, as the code has it.  Every row [parseCSV] builds has a string under
    [id].  The ids of the rows built from a CSV are pairwise distinct when no
    record has an [id] cell (all ids are then synthesized) and when every
    record has a non-empty [id] cell and these cells are pairwise distinct.
    [updateRow] and [deleteRow] keep the ids pairwise distinct and defined;
    [setRows] stores its payload unchecked.  Hence a run of actions from a
    state with distinct, defined ids ends in such a state provided every
    [setRows] in it carries a payload with distinct, defined ids. *)
Theorem ids_preserved_by_update_and_delete :
  (∀ clock records,
     Forall (λ row, ∃ s, get row "id" = VStr s) (data (reconcile clock records))) ∧
  (∀ clock records,
     (∀ r, r ∈ records → r !! "id" = None) →
     ids_ok (data (reconcile clock records))) ∧
  (∀ clock (records : list (gmap string string)),
     (∀ r, r ∈ records → ∃ s, r !! "id" = Some s ∧ s ≠ "") →
     NoDup ((λ r : gmap string string, r !! "id") <$> records) →
     ids_ok (data (reconcile clock records))) ∧
  (∀ st payload, rows (setRows st payload) = payload) ∧
  (∀ st payload, ids_ok (rows st) → ids_ok (rows (updateRow st payload))) ∧
  (∀ st id, ids_ok (rows st) → ids_ok (rows (deleteRow st id))) ∧
  (∀ st acts, ids_ok (rows st) → Forall action_ok acts → ids_ok (rows (run st acts))) ∧
  ids_ok (rows initial_state).
Proof.
  split; [apply reconcile_ids_defined|].
  split.
  { intros clock records Hnone.
    apply ids_ok_of_parts; [|apply reconcile_ids_defined].
    rewrite reconcile_ids. apply NoDup_alt. intros i j v.
    rewrite !list_lookup_imap.
    destruct (records !! i) as [ri|] eqn:Hi; [|done].
    destruct (records !! j) as [rj|] eqn:Hj; [|done].
    cbn. rewrite (Hnone ri), (Hnone rj) by (by eapply list_elem_of_lookup_2).
    intros [= <-] [= Heq]. symmetry. by eapply fresh_id_inj. }
  split.
  { intros clock records Hsome Hnd.
    apply ids_ok_of_parts; [|apply reconcile_ids_defined].
    rewrite reconcile_ids. apply NoDup_alt. intros i j v.
    rewrite !list_lookup_imap.
    destruct (records !! i) as [ri|] eqn:Hi; [|done].
    destruct (records !! j) as [rj|] eqn:Hj; [|done].
    destruct (Hsome ri) as (si & Hsi & _); [by eapply list_elem_of_lookup_2|].
    destruct (Hsome rj) as (sj & Hsj & _); [by eapply list_elem_of_lookup_2|].
    cbn. rewrite Hsi, Hsj. intros [= <-] [= ->].
    eapply (proj1 (NoDup_alt _) Hnd i j (Some si));
      rewrite list_lookup_fmap; [rewrite Hi|rewrite Hj]; cbn; congruence. }
  split; [done|].
  split; [apply updateRow_ids_ok|].
  split; [apply deleteRow_ids_ok|].
  split; [intros st acts; apply run_ids_ok|].
  apply sampleData_ids_ok.
Qed.

End Ids.

(** C2 as stated fails: importing the CSV text [id,name,email / 7,a,a@x.com /
    7,b,b@x.com] into the start state leaves two rows with the id [7]. *)
Lemma import_repeats_ids :
  ¬ ids_ok (Store.rows (@Store.run Store.json_rows initial_state
      [ Store.SetRows (Csv.data (Csv.parseCSV (λ _, 1700000000000%N)
          ("id,name,email" +:+ nl +:+ "7,a,a@x.com" +:+ nl +:+ "7,b,b@x.com" +:+ nl))) ])).
Proof.
  intros [Hnd _].
  assert (Hids : ids (Store.rows (@Store.run Store.json_rows initial_state
      [ Store.SetRows (Csv.data (Csv.parseCSV (λ _, 1700000000000%N)
          ("id,name,email" +:+ nl +:+ "7,a,a@x.com" +:+ nl +:+ "7,b,b@x.com" +:+ nl))) ]))
      = [VStr "7"; VStr "7"]) by (vm_compute; reflexivity).
  rewrite Hids in Hnd. apply NoDup_cons in Hnd as [Hnotin _].
  apply Hnotin. by left.
Qed.

(** ** App.tsx: pagination *)
Section Pagination.
Import View.

Lemma slice_take_drop {A} (l : list A) (a b : Z) :
  0 ≤ a → a ≤ b →
  slice l a b = take (Z.to_nat (b - a)) (drop (Z.to_nat a) l).
Proof.
  intros Ha Hab. unfold slice.
  destruct (Z.ltb_spec a 0); [lia|]. destruct (Z.ltb_spec b 0); [lia|].
  destruct (decide (a ≤ Z.of_nat (length l))) as [Hle|Hgt].
  - rewrite (Z.min_l a) by lia.
    destruct (decide (b ≤ Z.of_nat (length l))) as [Hble|Hbgt].
    + rewrite (Z.min_l b) by lia. f_equal. lia.
    + rewrite (Z.min_r b) by lia.
      rewrite !take_ge; [done| |]; rewrite length_drop; lia.
  - rewrite (Z.min_r a), (Z.min_r b) by lia.
    rewrite !(drop_ge l) by lia. by rewrite !take_nil.
Qed.

Lemma filter_keep_all (rows : list Row) :
  filter (λ r, keep_row "" r = true) rows = rows.
Proof.
  induction rows as [|r rows IH]; [done|].
  rewrite filter_cons_True by done. by rewrite IH.
Qed.

(** C8.  For a page index that is not negative and a positive page size, the
    items of the view are the rows of the filtered and sorted sequence from
    position [pageIndex * pageSize] on, [pageSize] of them at most: item [i]
    is the row at position [pageIndex * pageSize + i] for [i < pageSize], and
    there is no item beyond; the total count is the length of the filtered
    sequence before the cut.  Twelve rows, page size 5, page 1: the rows at
    positions 5 to 9 and a total of 12. *)
Theorem paginated_is_page_slice (rows : list Row) (q : ViewQuery) :
  0 ≤ pageIndex q → 0 < pageSize q →
  items (computeView rows q)
    = take (Z.to_nat (pageSize q))
        (drop (Z.to_nat (pageIndex q * pageSize q))
           (filtered rows (searchText q) (sortKey q) (sortDirection q))) ∧
  (∀ i : nat,
     items (computeView rows q) !! i
       = if decide (Z.of_nat i < pageSize q)
         then filtered rows (searchText q) (sortKey q) (sortDirection q)
                !! (Z.to_nat (pageIndex q * pageSize q) + i)%nat
         else None) ∧
  totalCount (computeView rows q)
    = length (filtered rows (searchText q) (sortKey q) (sortDirection q)) ∧
  (∀ r0 r1 r2 r3 r4 r5 r6 r7 r8 r9 r10 r11 : Row,
     computeView [r0; r1; r2; r3; r4; r5; r6; r7; r8; r9; r10; r11]
       (mkQuery "" None asc 1 5)
     = mkView [r5; r6; r7; r8; r9] 12).
Proof.
  intros Hpage Hsize.
  assert (Hitems : items (computeView rows q)
    = take (Z.to_nat (pageSize q))
        (drop (Z.to_nat (pageIndex q * pageSize q))
           (filtered rows (searchText q) (sortKey q) (sortDirection q)))).
  { unfold computeView, paginated. cbn [items].
    rewrite slice_take_drop by nia. do 2 f_equal. lia. }
  split; [exact Hitems|]. split; [|split; [done|]].
  - intros i. rewrite Hitems, lookup_take, lookup_drop.
    destruct (decide (i < Z.to_nat (pageSize q))%nat), (decide (Z.of_nat i < pageSize q));
      first [done|lia].
  - intros. unfold computeView, paginated, filtered.
    change (toLowerCase (trim "")) with "".
    cbn [searchText sortKey sortDirection pageIndex pageSize].
    rewrite filter_keep_all. reflexivity.
Qed.

(** The instance of C8 on the three sample rows with two rows per page: the
    second page holds the third row alone. *)
Lemma paginated_is_page_slice_witness :
  0 ≤ pageIndex (mkQuery "" None asc 1 2) ∧
  0 < pageSize (mkQuery "" None asc 1 2) ∧
  ids (items (computeView Store.sampleData (mkQuery "" None asc 1 2))) = [VStr "3"] ∧
  totalCount (computeView Store.sampleData (mkQuery "" None asc 1 2)) = 3%nat.
Proof.
  assert (H0 : 0 ≤ pageIndex (mkQuery "" None asc 1 2)) by (cbn; lia).
  assert (H1 : 0 < pageSize (mkQuery "" None asc 1 2)) by (cbn; lia).
  split; [exact H0|]. split; [exact H1|].
  destruct (paginated_is_page_slice Store.sampleData _ H0 H1) as (Hitems & _ & Hcount & _).
  split.
  - rewrite Hitems. vm_compute. reflexivity.
  - rewrite Hcount. vm_compute. reflexivity.
Defined.

End Pagination.

(** ** Strings: white space and case *)
Section WhiteSpaceAndCase.

Lemma chars_app (s t : string) : chars (s +:+ t) = chars s ++ chars t.
Proof. induction s as [|c s IH]; [done|]. rewrite app_cons_str. cbn. by rewrite IH. Qed.

Lemma chars_inj (s t : string) : chars s = chars t → s = t.
Proof.
  revert t. induction s as [|c s IH]; intros [|d t] H; try done.
  injection H as -> H. by rewrite (IH t H).
Qed.

Lemma app_eq_nil_str (s t : string) : s +:+ t = "" → s = "" ∧ t = "".
Proof. destruct s; [done|]. by rewrite app_cons_str. Qed.

Lemma is_white_spec (c : ascii) : is_white c = true ↔ white c.
Proof.
  unfold is_white, white, white_codes.
  rewrite !elem_of_cons, elem_of_nil, !orb_true_iff, andb_true_iff,
    !Nat.leb_le, !Nat.eqb_eq.
  lia.
Qed.

Lemma is_white_false (c : ascii) : is_white c = false ↔ ¬ white c.
Proof. rewrite <- is_white_spec. by destruct (is_white c). Qed.

Lemma lower_char_code (c : ascii) :
  nat_of_ascii (lower_char c) = lower_code (nat_of_ascii c).
Proof.
  unfold lower_char, lower_code.
  destruct (decide _) as [H|H].
  - replace ((65 <=? nat_of_ascii c)%nat && (nat_of_ascii c <=? 90)%nat
             || (192 <=? nat_of_ascii c)%nat && (nat_of_ascii c <=? 222)%nat
                && negb (nat_of_ascii c =? 215)%nat) with true.
    + apply nat_ascii_embedding. lia.
    + symmetry. rewrite orb_true_iff, !andb_true_iff, negb_true_iff,
        !Nat.leb_le, Nat.eqb_neq. lia.
  - replace ((65 <=? nat_of_ascii c)%nat && (nat_of_ascii c <=? 90)%nat
             || (192 <=? nat_of_ascii c)%nat && (nat_of_ascii c <=? 222)%nat
                && negb (nat_of_ascii c =? 215)%nat) with false; [done|].
    symmetry. apply not_true_iff_false.
    rewrite orb_true_iff, !andb_true_iff, negb_true_iff, !Nat.leb_le, Nat.eqb_neq. lia.
Qed.

Lemma lower_code_idemp (n : nat) : lower_code (lower_code n) = lower_code n.
Proof. unfold lower_code. repeat case_decide; lia. Qed.

Lemma toLowerCase_lowered (s : string) : lowered_of s (toLowerCase s).
Proof.
  unfold lowered_of. induction s as [|c s IH]; [done|].
  cbn [toLowerCase chars fmap list_fmap].
  fold (fmap (M:=list) nat_of_ascii). fold (fmap (M:=list) (λ c, lower_code (nat_of_ascii c))).
  by rewrite lower_char_code, IH.
Qed.


Lemma toLowerCase_no_upper (s : string) : no_upper (toLowerCase s).
Proof.
  unfold no_upper. induction s as [|c s IH]; [constructor|].
  cbn [toLowerCase chars]. constructor; [|done].
  by rewrite lower_char_code, lower_code_idemp.
Qed.

Lemma trimStart_spec (s : string) :
  ∃ pre, s = pre +:+ trimStart s ∧ all_white pre ∧
         ∀ c t', trimStart s = String c t' → ¬ white c.
Proof.
  induction s as [|c s (pre & Hs & Hpre & Hhead)].
  { exists "". split; [done|]. split; [constructor|done]. }
  cbn [trimStart]. destruct (is_white c) eqn:Hc.
  - exists (String c pre). rewrite app_cons_str, <- Hs. split; [done|].
    split; [|done]. constructor; [by apply is_white_spec|done].
  - exists "". split; [done|]. split; [constructor|].
    intros c' t' [= <- _]. by apply is_white_false.
Qed.

Lemma trimEnd_spec (s : string) :
  ∃ post, s = trimEnd s +:+ post ∧ all_white post ∧
          ∀ t' c, trimEnd s = t' +:+ String c "" → ¬ white c.
Proof.
  induction s as [|c s (post & Hs & Hpost & Hlast)].
  { exists "". split; [done|]. split; [constructor|].
    intros t' c H. symmetry in H. by apply app_eq_nil_str in H as [_ ?]. }
  cbn [trimEnd]. destruct (trimEnd s) as [|d t] eqn:Ht.
  - rewrite app_nil_l_str in Hs. subst post. destruct (is_white c) eqn:Hc.
    + exists (String c s). split; [done|]. split.
      * constructor; [by apply is_white_spec|done].
      * intros t' c' H. symmetry in H. by apply app_eq_nil_str in H as [_ ?].
    + exists s. split; [done|]. split; [done|].
      intros [|e t'] c' H.
      * injection H as <-. by apply is_white_false.
      * rewrite app_cons_str in H. injection H as _ H. symmetry in H.
        by apply app_eq_nil_str in H as [_ ?].
  - exists post. rewrite app_cons_str, <- Hs. split; [done|]. split; [done|].
    intros [|e t'] c' H.
    + rewrite app_nil_l_str in H. by injection H.
    + rewrite app_cons_str in H. injection H as <- H. by apply (Hlast t' c').
Qed.

(** [trimEnd] leaves the first character where it is. *)
Lemma trimEnd_head (s : string) (c : ascii) (t : string) :
  trimEnd s = String c t → ∃ s', s = String c s'.
Proof.
  destruct s as [|d s]; [done|]. cbn [trimEnd].
  destruct (trimEnd s); [destruct (is_white d)|]; intros [= <- _]; eauto.
Qed.

Lemma trimStart_white (pre s : string) :
  all_white pre → trimStart (pre +:+ s) = trimStart s.
Proof.
  induction pre as [|c pre IH]; intros Hpre; [done|].
  apply Forall_cons in Hpre as [Hc Hpre].
  rewrite app_cons_str. cbn [trimStart].
  by rewrite (proj2 (is_white_spec c) Hc), IH.
Qed.

Lemma trimStart_all_white (s : string) : all_white s → trimStart s = "".
Proof. intros H. rewrite <- (app_nil_r_str s). by rewrite trimStart_white. Qed.




(** What [trim] returns is the text without the white space at its ends. *)
Lemma trim_trimmed (s : string) : trimmed_of s (trim s).
Proof.
  unfold trim.
  destruct (trimStart_spec s) as (pre & Hs & Hpre & Hhead).
  destruct (trimEnd_spec (trimStart s)) as (post & Ht & Hpost & Hlast).
  exists pre, post. split; [by rewrite <- Ht|]. split; [done|]. split; [done|].
  split; [|done].
  intros c t' Hc. destruct (trimEnd_head _ _ _ Hc) as [s' Hs']. by eapply Hhead.
Qed.




End WhiteSpaceAndCase.

(** ** App.tsx: the search filter *)
Section Filter.
Import View.









End Filter.

(** ** Numbers *)
Section Numbers.







Lemma of_Z_neg (p : positive) : of_Z (Z.neg p) = neg (of_Z (Z.pos p)).
Proof. reflexivity. Qed.

(** *** The decimal text of an integer converts to that integer *)













End Numbers.

(** ** App.tsx: the sort comparator *)
Section Comparator.
Import View.


Lemma str_ltb_nil (s : string) :
  str_ltb s "" = false ∧ str_ltb "" s = negb (bool_decide (s = "")).
Proof. by destruct s. Qed.






End Comparator.


(** ** The CSV text: reading back what was written *)
Section Tokenizer.
Import Papa.










End Tokenizer.

(** ** utils/csv: export followed by import *)
Section RoundTrip.
Import Papa Csv.





















End RoundTrip.

Section RoundTripClaim.
Import Papa Csv.



(** The text exported for these rows, and what is read back from it. *)
Example exportCSV_rows_to_escape :
  exportCSV rows_to_escape ["name"; "note"]
  = "name,note" +:+ newline +:+
    String quote "Doe, Jane" +:+ String quote "," +:+
    String quote "said " +:+ String quote (String quote "hi") +:+
    String quote (String quote (String quote "")) +:+ newline +:+
    "Bob," +:+ String quote "two" +:+ nl +:+ "lines" +:+ String quote "" ∧
  Papa.parse (exportCSV rows_to_escape ["name"; "note"])
  = [ list_to_map [("name", "Doe, Jane");
                   ("note", "said " +:+ String quote "hi" +:+ String quote "")];
      list_to_map [("name", "Bob"); ("note", "two" +:+ nl +:+ "lines")] ].
Proof. split; vm_compute; reflexivity. Qed.

(** A single key and an empty string under it: the line of the row is empty
    and nothing is read back. *)
Example exportCSV_empty_line :
  exportCSV [ list_to_map [("id", VStr "1"); ("name", VStr "Alice"); ("note", VStr "")] ]
            ["note"]
  = "note" +:+ newline ∧
  Papa.parse ("note" +:+ newline) = [].
Proof. split; vm_compute; reflexivity. Qed.

End RoundTripClaim.



(* ================================================================== *)
(** * Part III: further properties of the code                         *)
(* ================================================================== *)

(** ** utils/csv: the rows and the error lines of an import *)
Section ParsedRows.
Import Papa Csv.
Variable clock : nat → N.

Lemma build_row_dom now i (r : gmap string string) :
  dom (build_row now i r)
  = dom r ∪ list_to_set ["id"; "name"; "email"; "age"; "role"].
Proof.
  unfold build_row. rewrite dom_union_L, dom_fmap_L, dom_list_to_map_L. done.
Qed.

Lemma mjoin_imap_nil {A B} (f : nat → A → list B) (l : list A) :
  mjoin (imap f l) = [] ↔ ∀ i x, l !! i = Some x → f i x = [].
Proof.
  revert f. induction l as [|a l IH]; intros f; cbn [imap mjoin list_join].
  { split; [by intros _ i x|done]. }
  split.
  - intros [Ha Hl]%app_nil i x Hi. destruct i as [|i]; cbn in Hi.
    + by simplify_eq.
    + by apply (proj1 (IH (f ∘ S)) Hl i x).
  - intros H. apply app_nil. split; [by apply (H 0%nat)|].
    apply IH. intros i x Hi. by apply (H (S i)).
Qed.

Lemma mjoin_imap_length {A B} (f : nat → A → list B) (l : list A) :
  (∀ i x, length (f i x) ≤ 1)%nat → (length (mjoin (imap f l)) ≤ length l)%nat.
Proof.
  intros Hf. revert f Hf. induction l as [|a l IH]; intros f Hf; [done|].
  assert (Heq : mjoin (imap f (a :: l)) = f 0%nat a ++ mjoin (imap (f ∘ S) l))
    by reflexivity.
  rewrite Heq, length_app. cbn [length].
  pose proof (Hf 0%nat a) as Hhead.
  assert (length (mjoin (imap (f ∘ S) l)) ≤ length l)%nat.
  { apply IH. intros i x. apply Hf. }
  lia.
Qed.

(** X1.  Each row [parseCSV] builds has the keys of its record and the five
    keys [id], [name], [email], [age] and [role], and no other key: columns
    the program does not know are kept, and the five standard ones are always
    there. *)
Theorem parsed_rows_have_record_and_standard_keys (records : list (gmap string string)) :
  Forall2 (λ (r : gmap string string) (row : Row),
             dom row = dom r ∪ list_to_set ["id"; "name"; "email"; "age"; "role"])
    records (data (reconcile clock records)).
Proof.
  apply Forall2_same_length_lookup. split.
  { by rewrite reconcile_data, length_imap. }
  intros i r row Hr. rewrite reconcile_lookup, Hr. intros [= <-].
  apply build_row_dom.
Qed.

(** X2.  An import reports no error exactly when every record has a name and
    an email that are not empty, and it never reports more errors than it
    builds rows. *)
Theorem import_is_clean_iff_all_named (records : list (gmap string string)) :
  (errors (reconcile clock records) = []
   ↔ Forall (λ r, ¬ lacks r "name" ∧ ¬ lacks r "email") records) ∧
  (length (errors (reconcile clock records))
   ≤ length (data (reconcile clock records)))%nat.
Proof.
  rewrite reconcile_errors, reconcile_data, length_imap. unfold expected_errors. split.
  - rewrite mjoin_imap_nil, Forall_lookup. split.
    + intros H i r Hr. specialize (H i r Hr). cbn in H.
      destruct (decide (lacks r "name" ∨ lacks r "email")); [done|tauto].
    + intros H i r Hr. specialize (H i r Hr). cbn in H.
      destruct (decide (lacks r "name" ∨ lacks r "email")); [tauto|done].
  - apply mjoin_imap_length. intros i r.
    destruct (decide (lacks r "name" ∨ lacks r "email")); cbn; lia.
Qed.

End ParsedRows.

(** ** store/index: how the reducers compose *)
Section Reducers.
Import Store Slices.
Context `{!Stringify (list Row), !Stringify (list ColumnDef)}.
Implicit Types (st : AppState) (payload : Row).

Lemma dispatch_eta st (a : DataAction) :
  dispatch st a
  = mkState (rows (dispatch st a)) (columns st)
      (persist_rows (rows (dispatch st a)) (localStorage st)).
Proof. by destruct a. Qed.

Lemma dispatch_columns_eta st (a : ColumnAction) :
  dispatch_columns st a
  = mkState (rows st) (columns (dispatch_columns st a))
      (persist_columns (columns (dispatch_columns st a)) (localStorage st)).
Proof. by destruct a. Qed.

Lemma dispatch_rows_only st1 st2 (a : DataAction) :
  rows st1 = rows st2 → rows (dispatch st1 a) = rows (dispatch st2 a).
Proof.
  intros Heq. destruct a; cbn [dispatch]; unfold setRows, updateRow, deleteRow;
    cbn [rows]; by rewrite ?Heq.
Qed.

Lemma dispatch_columns_only st1 st2 (a : ColumnAction) :
  columns st1 = columns st2 →
  columns (dispatch_columns st1 a) = columns (dispatch_columns st2 a).
Proof.
  intros Heq. destruct a; cbn [dispatch_columns];
    unfold toggleColumn, addColumn, setColumns; cbn [columns]; by rewrite ?Heq.
Qed.

Lemma updateRow_first_cases st payload :
  ((∀ r, r ∈ rows st → get r "id" ≠ get payload "id") ∧
   rows (updateRow st payload) = rows st) ∨
  (∃ (i : nat) r, rows st !! i = Some r ∧ get r "id" = get payload "id" ∧
     (∀ j r', (j < i)%nat → rows st !! j = Some r' → get r' "id" ≠ get payload "id") ∧
     rows (updateRow st payload) = <[i := payload]> (rows st)).
Proof.
  pose proof (findIndex_bounds (λ r, strict_eq (get r "id") (get payload "id")) (rows st)) as Hb.
  destruct (decide (findIndex (λ r, strict_eq (get r "id") (get payload "id")) (rows st) = -1))
    as [Hm|Hm].
  - left. assert (Hall : ∀ r, r ∈ rows st → get r "id" ≠ get payload "id").
    { intros r Hr. apply strict_eq_false. revert r Hr. by apply findIndex_none. }
    split; [done|]. by apply updateRow_rows_miss.
  - right.
    assert (Hi : findIndex (λ r, strict_eq (get r "id") (get payload "id")) (rows st)
                 = Z.of_nat (Z.to_nat (findIndex (λ r, strict_eq (get r "id") (get payload "id")) (rows st))))
      by lia.
    apply findIndex_first in Hi as [(r & Hr & Hp) Hfirst].
    assert (Hfirst' : ∀ j r', (j < Z.to_nat (findIndex (λ r, strict_eq (get r "id")
                         (get payload "id")) (rows st)))%nat →
                       rows st !! j = Some r' → get r' "id" ≠ get payload "id").
    { intros j r' Hj Hr'. apply strict_eq_false. by eapply Hfirst. }
    eexists _, r. split; [exact Hr|]. apply strict_eq_true in Hp. split; [done|].
    split; [exact Hfirst'|]. by eapply updateRow_rows_hit.
Qed.

(** X3.  Saving the same row twice is the same as saving it once: a second
    [updateRow] with the same payload leaves the state, storage included, as
    the first one made it. *)
Theorem updateRow_twice_is_once st payload :
  updateRow (updateRow st payload) payload = updateRow st payload.
Proof.
  assert (Hrows : rows (updateRow (updateRow st payload) payload)
                  = rows (updateRow st payload)).
  { destruct (updateRow_first_cases st payload)
      as [[Hmiss Heq]|(i & r & Hr & Hid & Hfirst & Heq)].
    - apply updateRow_rows_miss. by rewrite Heq.
    - assert (Hlt : (i < length (rows st))%nat) by (by eapply lookup_lt_Some).
      rewrite (updateRow_rows_hit (updateRow st payload) payload i payload).
      + rewrite Heq. apply list_insert_insert_eq.
      + rewrite Heq. by apply list_lookup_insert_eq.
      + done.
      + intros j r' Hj. rewrite Heq, list_lookup_insert_ne by lia.
        by apply Hfirst. }
  rewrite (dispatch_eta (updateRow st payload) (UpdateRow payload) : updateRow _ _ = _).
  cbn [dispatch]. rewrite Hrows.
  etransitivity; [|symmetry; apply (dispatch_eta st (UpdateRow payload))].
  cbn [dispatch]. f_equal.
  change (localStorage (updateRow st payload))
    with (persist_rows (rows (updateRow st payload)) (localStorage st)).
  unfold persist_rows. apply insert_insert_eq.
Qed.

(** X4.  [updateRow] never changes the id of any row nor the number of rows:
    the list of ids is the same before and after, whatever the payload. *)
Theorem updateRow_keeps_the_ids st payload :
  ids (rows (updateRow st payload)) = ids (rows st) ∧
  length (rows (updateRow st payload)) = length (rows st).
Proof.
  destruct (updateRow_first_cases st payload)
    as [[_ ->]|(i & r & Hr & Hid & _ & ->)]; [done|].
  split; [|apply length_insert].
  unfold ids. rewrite list_fmap_insert, list_insert_id; [done|].
  by rewrite list_lookup_fmap, Hr, <- Hid.
Qed.

(** X5.  Deletions commute: deleting two ids in either order gives the same
    state, storage included. *)
Theorem deleteRow_commutes st (a b : string) :
  deleteRow (deleteRow st a) b = deleteRow (deleteRow st b) a.
Proof.
  assert (Hrows : rows (deleteRow (deleteRow st a) b) = rows (deleteRow (deleteRow st b) a)).
  { rewrite !deleteRow_rows, !list_filter_filter. apply list_filter_iff. tauto. }
  rewrite (dispatch_eta (deleteRow st a) (DeleteRow b) : deleteRow _ _ = _).
  rewrite (dispatch_eta (deleteRow st b) (DeleteRow a) : deleteRow _ _ = _).
  cbn [dispatch]. rewrite Hrows. f_equal.
  change (localStorage (deleteRow st a))
    with (persist_rows (rows (deleteRow st a)) (localStorage st)).
  change (localStorage (deleteRow st b))
    with (persist_rows (rows (deleteRow st b)) (localStorage st)).
  unfold persist_rows. by rewrite !insert_insert_eq.
Qed.

Lemma reducer_keeps_rows_synced st (a : Action) :
  localStorage st !! "table_rows" = Some (JSON_stringify (rows st)) →
  localStorage (reducer st a) !! "table_rows" = Some (JSON_stringify (rows (reducer st a))).
Proof.
  intros Hst. destruct a as [d|c]; cbn [reducer].
  - rewrite dispatch_eta. cbn [rows localStorage]. unfold persist_rows.
    apply lookup_insert_eq.
  - rewrite dispatch_columns_eta. cbn [rows localStorage]. unfold persist_columns.
    by rewrite lookup_insert_ne.
Qed.

Lemma reducer_keeps_columns_synced st (a : Action) :
  localStorage st !! "table_columns" = Some (JSON_stringify (columns st)) →
  localStorage (reducer st a) !! "table_columns"
  = Some (JSON_stringify (columns (reducer st a))).
Proof.
  intros Hst. destruct a as [d|c]; cbn [reducer].
  - rewrite dispatch_eta. cbn [columns localStorage]. unfold persist_rows.
    by rewrite lookup_insert_ne.
  - rewrite dispatch_columns_eta. cbn [columns localStorage]. unfold persist_columns.
    apply lookup_insert_eq.
Qed.

Lemma run_all_keeps_synced (acts : list Action) : ∀ st,
  (localStorage st !! "table_rows" = Some (JSON_stringify (rows st)) →
   localStorage (run_all st acts) !! "table_rows"
   = Some (JSON_stringify (rows (run_all st acts)))) ∧
  (localStorage st !! "table_columns" = Some (JSON_stringify (columns st)) →
   localStorage (run_all st acts) !! "table_columns"
   = Some (JSON_stringify (columns (run_all st acts)))).
Proof.
  induction acts as [|a acts IH]; intros st; [done|].
  unfold run_all in *. cbn [foldl]. split; intros Hst.
  - apply IH. by apply reducer_keeps_rows_synced.
  - apply IH. by apply reducer_keeps_columns_synced.
Qed.

(** X6.  After any run of actions in which some action was one of the [data]
    slice, the storage holds under [table_rows] the encoding of the rows as
    they are at the end of the run; and likewise for [table_columns] and the
    columns after a run with an action of the [column] slice.  The stored
    snapshot never lags behind the state. *)
Theorem storage_follows_the_state st (before after : list Action) :
  (∀ d : DataAction,
     localStorage (run_all st (before ++ OnData d :: after)) !! "table_rows"
     = Some (JSON_stringify (rows (run_all st (before ++ OnData d :: after))))) ∧
  (∀ c : ColumnAction,
     localStorage (run_all st (before ++ OnColumns c :: after)) !! "table_columns"
     = Some (JSON_stringify (columns (run_all st (before ++ OnColumns c :: after))))).
Proof.
  split.
  - intros d. unfold run_all. rewrite foldl_app. cbn [foldl].
    apply (run_all_keeps_synced after). cbn [reducer]. rewrite dispatch_eta.
    cbn [rows localStorage]. unfold persist_rows. apply lookup_insert_eq.
  - intros c. unfold run_all. rewrite foldl_app. cbn [foldl].
    apply (run_all_keeps_synced after). cbn [reducer]. rewrite dispatch_columns_eta.
    cbn [columns localStorage]. unfold persist_columns. apply lookup_insert_eq.
Qed.

(** X7.  The two slices do not interfere: an action on the rows leaves the
    columns and their stored snapshot alone, an action on the columns leaves
    the rows and theirs alone, and so an action of one slice and an action of
    the other give the same state in either order. *)
Theorem slices_are_independent st (d : DataAction) (c : ColumnAction) :
  columns (reducer st (OnData d)) = columns st ∧
  localStorage (reducer st (OnData d)) !! "table_columns"
    = localStorage st !! "table_columns" ∧
  rows (reducer st (OnColumns c)) = rows st ∧
  localStorage (reducer st (OnColumns c)) !! "table_rows"
    = localStorage st !! "table_rows" ∧
  reducer (reducer st (OnData d)) (OnColumns c)
    = reducer (reducer st (OnColumns c)) (OnData d).
Proof.
  cbn [reducer].
  assert (Hc : columns (dispatch st d) = columns st) by (by rewrite dispatch_eta).
  assert (Hr : rows (dispatch_columns st c) = rows st) by (by rewrite dispatch_columns_eta).
  split; [exact Hc|].
  split.
  { rewrite dispatch_eta. cbn [localStorage]. unfold persist_rows.
    by rewrite lookup_insert_ne. }
  split; [exact Hr|].
  split.
  { rewrite dispatch_columns_eta. cbn [localStorage]. unfold persist_columns.
    by rewrite lookup_insert_ne. }
  rewrite (dispatch_columns_eta (dispatch st d) c), (dispatch_eta (dispatch_columns st c) d).
  rewrite (dispatch_rows_only (dispatch_columns st c) st d Hr).
  rewrite (dispatch_columns_only (dispatch st d) st c Hc).
  cbn [rows columns localStorage]. f_equal.
  assert (Hl1 : localStorage (dispatch st d)
                = persist_rows (rows (dispatch st d)) (localStorage st))
    by (by destruct d).
  assert (Hl2 : localStorage (dispatch_columns st c)
                = persist_columns (columns (dispatch_columns st c)) (localStorage st))
    by (by destruct c).
  rewrite Hl1, Hl2. unfold persist_rows, persist_columns.
  by apply insert_insert_ne.
Qed.

End Reducers.

(** ** store/index: columns that share a key *)
Section SharedKeys.
Import Store.
Context `{!Stringify (list ColumnDef)}.
Implicit Types (st : AppState) (k : string).

Lemma toggleColumn_keeps_keys st k (j : nat) d :
  columns st !! j = Some d →
  ∃ d', columns (toggleColumn st k) !! j = Some d' ∧ key d' = key d.
Proof.
  intros Hd.
  destruct (toggleColumn_cases st k) as [[_ ->]|(i0 & c0 & Hc0 & Hk & Hfirst & ->)].
  { by exists d. }
  destruct (decide (i0 = j)) as [->|Hne].
  - exists (flip_visible d). by rewrite list_lookup_alter_eq, Hd.
  - exists d. by rewrite list_lookup_alter_ne.
Qed.

Lemma toggleColumn_skips_later_twin st k (i : nat) c :
  columns st !! i = Some c →
  (∃ (j : nat) d, (j < i)%nat ∧ columns st !! j = Some d ∧ key d = key c) →
  columns (toggleColumn st k) !! i = Some c.
Proof.
  intros Hc (j & d & Hj & Hd & Hkey).
  destruct (toggleColumn_cases st k) as [[_ ->]|(i0 & c0 & Hc0 & Hk & Hfirst & ->)];
    [done|].
  destruct (decide (i0 = i)) as [->|Hne].
  - exfalso. simplify_eq. apply (Hfirst j d Hj Hd). congruence.
  - by rewrite list_lookup_alter_ne.
Qed.

Lemma toggles_skip_later_twin (ks : list string) : ∀ st (i : nat) c,
  columns st !! i = Some c →
  (∃ (j : nat) d, (j < i)%nat ∧ columns st !! j = Some d ∧ key d = key c) →
  columns (foldl toggleColumn st ks) !! i = Some c.
Proof.
  induction ks as [|k ks IH]; intros st i c Hc Htwin; [done|].
  cbn [foldl]. apply IH.
  - by apply toggleColumn_skips_later_twin.
  - destruct Htwin as (j & d & Hj & Hd & Hkey).
    destruct (toggleColumn_keeps_keys st k j d Hd) as (d' & Hd' & Hkey').
    exists j, d'. split; [done|]. split; [done|]. congruence.
Qed.

(** X8.  [addColumn] checks nothing: a column added under a key that a column
    already has is appended all the same.  Since [toggleColumn] acts on the
    first column with the key it is given, no sequence of toggles ever
    changes the added column: its visibility cannot be switched. *)
Theorem column_added_under_taken_key_cannot_be_toggled st (c : ColumnDef)
    (ks : list string) :
  (∃ d, d ∈ columns st ∧ key d = key c) →
  columns (foldl toggleColumn (addColumn st c) ks) !! length (columns st) = Some c.
Proof.
  intros (d & Hd & Hkey). apply list_elem_of_lookup in Hd as [j Hj].
  apply toggles_skip_later_twin.
  - unfold addColumn. cbn [columns]. by rewrite list_lookup_middle.
  - exists j, d. split; [by eapply lookup_lt_Some|]. split; [|done].
    unfold addColumn. cbn [columns]. by rewrite lookup_app_l by (by eapply lookup_lt_Some).
Qed.

End SharedKeys.

(** The instance of X8 on the default columns: a second column with the key
    [age] stays visible through three toggles, two of them of [age]. *)
Lemma column_added_under_taken_key_cannot_be_toggled_witness :
  (∃ d, d ∈ Store.columns initial_state ∧ key d = key (mkColumn "age" "Age in years" true)) ∧
  Store.columns
    (foldl (@Store.toggleColumn Slices.json_columns)
       (@Store.addColumn Slices.json_columns initial_state
          (mkColumn "age" "Age in years" true))
       ["age"; "name"; "age"])
    !! length (Store.columns initial_state)
  = Some (mkColumn "age" "Age in years" true).
Proof.
  assert (H : ∃ d, d ∈ Store.columns initial_state
                   ∧ key d = key (mkColumn "age" "Age in years" true)).
  { exists (mkColumn "age" "Age" true). split; [|done].
    cbn. set_solver. }
  split; [exact H|].
  apply (column_added_under_taken_key_cannot_be_toggled
           (Stringify0 := Slices.json_columns) initial_state _ _ H).
Defined.

(** ** App.tsx: the order a sort gives *)
Section SortedView.
Import View.













End SortedView.


(** ** App.tsx: the pages of the view *)
Section Pages.
Import View App.

Lemma paginated_of_page (p : nat) (s : Screen) :
  paginated_of (handlePageChange (Z.of_nat p) s)
  = take 5 (drop (p * 5) (filtered_of s)).
Proof.
  unfold paginated_of, handlePageChange, filtered_of, paginated, rowsPerPage.
  cbn [ui store page search sortKey sortDir].
  rewrite slice_take_drop by lia. f_equal; [lia|]. f_equal. lia.
Qed.

Lemma chunks_join {A} (l : list A) (m n : nat) :
  mjoin ((λ p : nat, take m (drop (p * m) l)) <$> seq 0 n) = take (n * m) l.
Proof.
  induction n as [|n IH]; [done|].
  rewrite seq_S, fmap_app, join_app, IH. cbn [fmap list_fmap mjoin list_join].
  rewrite app_nil_r, Nat.add_0_l, take_take_drop. f_equal. lia.
Qed.

(** X10.  The pages of the view, taken in order, are the filtered and sorted
    rows: every row of the sequence is on one page and on one only, at its
    place.  It takes [n] pages as soon as five times [n] is no less than the
    number of rows. *)
Theorem pages_in_order_give_the_filtered_rows (n : nat) (s : Screen) :
  (length (filtered_of s) ≤ n * 5)%nat →
  pages_upto n s = filtered_of s.
Proof.
  intros Hn. unfold pages_upto.
  assert (Hpages : (λ p : nat, paginated_of (handlePageChange (Z.of_nat p) s)) <$> seq 0 n
                   = (λ p : nat, take 5 (drop (p * 5) (filtered_of s))) <$> seq 0 n).
  { apply list_fmap_ext. intros i p _. apply paginated_of_page. }
  rewrite Hpages, chunks_join. by apply take_ge.
Qed.

End Pages.

(** The instance of X10 on seven rows: two pages, of five rows and of two. *)
Lemma pages_in_order_give_the_filtered_rows_witness :
  (length (App.filtered_of
             (App.mkScreen (Store.mkState seven_rows Store.defaultColumns ∅)
                App.initial_ui [])) ≤ 2 * 5)%nat ∧
  pages_upto 2 (App.mkScreen (Store.mkState seven_rows Store.defaultColumns ∅)
                  App.initial_ui [])
  = seven_rows ∧
  length (App.paginated_of
            (App.handlePageChange 1
               (App.mkScreen (Store.mkState seven_rows Store.defaultColumns ∅)
                  App.initial_ui []))) = 2%nat.
Proof.
  assert (H : (length (App.filtered_of
             (App.mkScreen (Store.mkState seven_rows Store.defaultColumns ∅)
                App.initial_ui [])) ≤ 2 * 5)%nat) by (vm_compute; lia).
  split; [exact H|]. split.
  - rewrite (pages_in_order_give_the_filtered_rows 2 _ H). vm_compute. reflexivity.
  - vm_compute. reflexivity.
Defined.

(** ** App.tsx: sorting by a header, moving a column *)
Section HeaderAndDrag.
Import Store View App.
Context `{!Stringify (list ColumnDef)}.

(** X11.  A click on a header always leaves the view sorted by that column.
    On a column the view was not sorted by, the direction is ascending; on
    the column it was sorted by, the direction turns over, so that two clicks
    on it in a row bring back the screen as it was.  The rows, the page and
    the search text are not touched. *)
Theorem header_click_sets_key_and_turns_direction (k : string) (s : Screen) :
  sortKey (ui (handleHeaderSort k s)) = Some k ∧
  (sortKey (ui s) ≠ Some k → sortDir (ui (handleHeaderSort k s)) = asc) ∧
  (sortKey (ui s) ≠ Some k →
     sortDir (ui (handleHeaderSort k (handleHeaderSort k s))) = desc) ∧
  (sortKey (ui s) = Some k → handleHeaderSort k (handleHeaderSort k s) = s) ∧
  store (handleHeaderSort k s) = store s ∧
  page (ui (handleHeaderSort k s)) = page (ui s) ∧
  search (ui (handleHeaderSort k s)) = search (ui s).
Proof.
  destruct s as [st [pg se mo ie eid ec sk sd dr] al].
  unfold handleHeaderSort. cbn [ui sortKey sortDir store alerts page search
    manageOpen importErrors editingId editCache dragColIndex].
  destruct (decide (sk = Some k)) as [->|Hne].
  - rewrite ?bool_decide_eq_true_2 by done. cbn.
    rewrite ?bool_decide_eq_true_2 by done. cbn.
    repeat split; try done. intros _. by destruct sd.
  - rewrite ?bool_decide_eq_false_2 by done. cbn.
    rewrite ?bool_decide_eq_true_2 by done. cbn. by repeat split.
Qed.

Lemma reinsert_at_same_place {A} (l : list A) (i : nat) (x : A) :
  l !! i = Some x → take i (delete i l) ++ x :: drop i (delete i l) = l.
Proof.
  revert i. induction l as [|y l IH]; intros [|i] Hi; cbn in *; simplify_eq.
  - by rewrite drop_0.
  - f_equal. by apply IH.
Qed.

Lemma moved_columns_spec (cols : list ColumnDef) (from to : nat) c :
  cols !! from = Some c → (to < length cols)%nat →
  ∃ newCols,
    moved_columns cols from to = Some newCols ∧
    newCols ≡ₚ cols ∧
    newCols !! to = Some c ∧
    delete to newCols = delete from cols ∧
    (from = to → newCols = cols).
Proof.
  intros Hc Hto. unfold moved_columns. rewrite Hc. eexists. split; [done|].
  assert (Hlen : length (delete from cols) = (length cols - 1)%nat).
  { pose proof (length_delete cols from (mk_is_Some _ _ Hc)) as Hld. lia. }
  assert (Htake : length (take to (delete from cols)) = to).
  { rewrite length_take. lia. }
  split; [|split; [|split]].
  - rewrite <- Permutation_middle, take_drop. symmetry. by apply delete_Permutation.
  - rewrite lookup_app_r by lia. by rewrite Htake, Nat.sub_diag.
  - rewrite <- Htake at 1. by rewrite delete_middle, take_drop.
  - intros <-. by apply reinsert_at_same_place.
Qed.

(** X12.  Dropping the dragged column on the header at position [to] puts it
    at that position and moves no other column past another: the columns
    after the drop are a rearrangement of the columns before, none lost and
    none doubled, and without the moved column both lists are the same.
    Dropping a column on itself changes no column.  The new order is written
    to the storage and the drag is over. *)
Theorem drop_moves_the_dragged_column (from to : nat) (c : ColumnDef) (s : Screen) :
  dragColIndex (ui s) = Some from →
  columns (store s) !! from = Some c →
  (to < length (columns (store s)))%nat →
  ∃ s', onDrop to s = Some s' ∧
    columns (store s') ≡ₚ columns (store s) ∧
    columns (store s') !! to = Some c ∧
    delete to (columns (store s')) = delete from (columns (store s)) ∧
    (from = to → columns (store s') = columns (store s)) ∧
    localStorage (store s') !! "table_columns"
      = Some (JSON_stringify (columns (store s'))) ∧
    rows (store s') = rows (store s) ∧
    dragColIndex (ui s') = None.
Proof.
  intros Hdrag Hc Hto.
  destruct (moved_columns_spec _ from to c Hc Hto) as (newCols & Hm & Hperm & Hat & Hdel & Hsame).
  unfold onDrop. rewrite Hdrag, Hm. eexists. split; [done|].
  cbn [store ui dragColIndex]. unfold setColumns, persist_columns.
  cbn [columns rows localStorage].
  repeat split; try done. apply lookup_insert_eq.
Qed.

End HeaderAndDrag.

(** The instance of X12 on the default columns: [name] dragged onto [age]. *)
Lemma drop_moves_the_dragged_column_witness :
  App.dragColIndex (App.ui (App.onDragStart 0
      (App.mkScreen initial_state App.initial_ui []))) = Some 0%nat ∧
  Store.columns initial_state !! 0%nat = Some (mkColumn "name" "Name" true) ∧
  (2 < length (Store.columns initial_state))%nat ∧
  ∃ s', @App.onDrop Slices.json_columns 2
          (App.onDragStart 0 (App.mkScreen initial_state App.initial_ui [])) = Some s' ∧
        key <$> Store.columns (App.store s') = ["email"; "age"; "name"; "role"].
Proof.
  assert (H1 : App.dragColIndex (App.ui (App.onDragStart 0
      (App.mkScreen initial_state App.initial_ui []))) = Some 0%nat) by done.
  assert (H2 : Store.columns (App.store (App.onDragStart 0
      (App.mkScreen initial_state App.initial_ui []))) !! 0%nat
      = Some (mkColumn "name" "Name" true)) by done.
  assert (H3 : (2 < length (Store.columns (App.store (App.onDragStart 0
      (App.mkScreen initial_state App.initial_ui [])))))%nat) by (cbn; lia).
  split; [exact H1|]. split; [exact H2|]. split; [exact H3|].
  destruct (drop_moves_the_dragged_column (Stringify0 := Slices.json_columns)
              0 2 _ _ H1 H2 H3) as (s' & Hs' & _).
  exists s'. split; [exact Hs'|].
  vm_compute in Hs'. injection Hs' as <-. vm_compute. reflexivity.
Defined.

(** ** App.tsx: editing a row *)
Section Editing.
Import Store View App.
Context `{!Stringify (list Row)}.

Lemma get_edited_other (k : string) (edits : list (string * string)) : ∀ row : Row,
  Forall (λ e, e.1 ≠ k) edits → get (edited row edits) k = get row k.
Proof.
  unfold edited. induction edits as [|e edits IH]; intros row He; [done|].
  apply Forall_cons in He as [Hne He]. cbn [foldl]. rewrite IH by done.
  unfold get. by rewrite lookup_insert_ne.
Qed.

Lemma typing_keeps_the_rest (edits : list (string * string)) : ∀ s0 : Screen,
  store (foldl (λ s e, handleCellChange e.1 e.2 s) s0 edits) = store s0 ∧
  alerts (foldl (λ s e, handleCellChange e.1 e.2 s) s0 edits) = alerts s0 ∧
  editingId (ui (foldl (λ s e, handleCellChange e.1 e.2 s) s0 edits))
    = editingId (ui s0) ∧
  editCache (ui (foldl (λ s e, handleCellChange e.1 e.2 s) s0 edits))
    = edited (editCache (ui s0)) edits.
Proof.
  unfold edited. induction edits as [|e edits IH]; intros s0; [done|].
  cbn [foldl]. destruct (IH (handleCellChange e.1 e.2 s0)) as (-> & -> & -> & ->).
  done.
Qed.

Lemma after_edits_parts (row : Row) (edits : list (string * string)) (s : Screen) :
  store (after_edits row edits s) = store s ∧
  alerts (after_edits row edits s) = alerts s ∧
  editingId (ui (after_edits row edits s)) = get row "id" ∧
  editCache (ui (after_edits row edits s)) = edited row edits.
Proof.
  unfold after_edits.
  destruct (typing_keeps_the_rest edits (handleDoubleClick row s)) as (-> & -> & -> & ->).
  done.
Qed.

(** X13.  Open a row for editing, type into any cells but [id], and save:
    when the id of the row is not empty and the age in the cache converts to
    a number, the row is replaced by the cache at its position, the other
    rows stay, nothing is alerted and the edit is closed.  The row has to be
    the first with its id, as it is when ids are not repeated. *)
Theorem saving_an_edit_replaces_the_edited_row (s : Screen) (row : Row)
    (edits : list (string * string)) (i : nat) (n : number) :
  rows (store s) !! i = Some row →
  (∀ j r', (j < i)%nat → rows (store s) !! j = Some r' → get r' "id" ≠ get row "id") →
  truthy (get row "id") = true →
  Forall (λ e, e.1 ≠ "id") edits →
  to_number (get (edited row edits) "age") = Some n →
  rows (store (saveEdit (after_edits row edits s)))
    = <[i := edited row edits]> (rows (store s)) ∧
  editingId (ui (saveEdit (after_edits row edits s))) = VNull ∧
  alerts (saveEdit (after_edits row edits s)) = alerts s ∧
  columns (store (saveEdit (after_edits row edits s))) = columns (store s).
Proof.
  intros Hrow Hfirst Hid Hedits Hage.
  destruct (after_edits_parts row edits s) as (Hst & Hal & Heid & Hcache).
  unfold saveEdit. rewrite Heid, Hid, Hcache, Hage. cbn [negb store ui alerts editingId].
  rewrite Hst, Hal. split; [|by repeat split].
  apply (updateRow_rows_hit (store s) (edited row edits) i row Hrow).
  - by rewrite get_edited_other.
  - intros j r' Hj Hr'. rewrite get_edited_other by done. by eapply Hfirst.
Qed.

(** X14.  A save that goes nowhere.  When the id of the opened row is empty or
    missing, [saveEdit] returns at once: the screen stays as it is, the edit
    stays open and nothing is said.  When the row has an id but no age and no
    age is typed, the save is refused: the rows are not touched, the edit
    stays open, and the message [Age must be a number] is shown. *)
Theorem save_does_nothing_without_id_and_is_refused_without_age (s : Screen)
    (row : Row) (edits : list (string * string)) :
  (Forall (λ e, e.1 ≠ "id") edits → truthy (get row "id") = false →
     saveEdit (after_edits row edits s) = after_edits row edits s) ∧
  (Forall (λ e, e.1 ≠ "age") edits → truthy (get row "id") = true →
     get row "age" = VUndef →
     store (saveEdit (after_edits row edits s)) = store s ∧
     editingId (ui (saveEdit (after_edits row edits s))) = get row "id" ∧
     editCache (ui (saveEdit (after_edits row edits s))) = edited row edits ∧
     alerts (saveEdit (after_edits row edits s)) = alerts s ++ ["Age must be a number"]).
Proof.
  destruct (after_edits_parts row edits s) as (Hst & Hal & Heid & Hcache).
  split.
  - intros _ Hid. unfold saveEdit. by rewrite Heid, Hid.
  - intros Hedits Hid Hage. unfold saveEdit.
    rewrite Heid, Hid, Hcache, get_edited_other, Hage by done.
    cbn [negb to_number store ui alerts]. by rewrite Hst, Hal, Heid, Hcache.
Qed.

(** X15.  An import replaces all rows by the rows of the text, whatever they
    are, and closes the dialog.  The error list is written only when the
    import has errors: after an import with errors, a second import without
    any still shows the errors of the first. *)
Theorem clean_import_keeps_the_old_errors (clock1 clock2 : nat → N)
    (text1 text2 : string) (s : Screen) :
  Csv.errors (Csv.parseCSV clock1 text1) ≠ [] →
  Csv.errors (Csv.parseCSV clock2 text2) = [] →
  importErrors (ui (handleImportText clock2 text2 (handleImportText clock1 text1 s)))
    = Some (Csv.errors (Csv.parseCSV clock1 text1)) ∧
  rows (store (handleImportText clock2 text2 (handleImportText clock1 text1 s)))
    = Csv.data (Csv.parseCSV clock2 text2) ∧
  manageOpen (ui (handleImportText clock2 text2 (handleImportText clock1 text1 s)))
    = false.
Proof.
  intros H1 H2. unfold handleImportText.
  cbn [ui store importErrors rows manageOpen]. unfold setRows. cbn [rows].
  rewrite (bool_decide_eq_true_2 _ H2), (bool_decide_eq_false_2 _ H1). done.
Qed.

End Editing.

(** The instance of X13 on the sample rows: the second row is opened, its
    name and age are retyped, the age with a fraction, and the save puts the
    cache in its place. *)
Lemma saving_an_edit_replaces_the_edited_row_witness :
  Store.rows initial_state !! 1%nat
    = Some (list_to_map [("id", VStr "2"); ("name", VStr "John");
                         ("email", VStr "john@example.com"); ("age", VNum 28);
                         ("role", VStr "IT")]) ∧
  Store.rows (App.store (@App.saveEdit Store.json_rows
     (after_edits
        (list_to_map [("id", VStr "2"); ("name", VStr "John");
                      ("email", VStr "john@example.com"); ("age", VNum 28);
                      ("role", VStr "IT")])
        [("name", "Jane"); ("age", "31.5")]
        (App.mkScreen initial_state App.initial_ui []))))
  = [ list_to_map [("id", VStr "1"); ("name", VStr "Alice");
                   ("email", VStr "alice@example.com"); ("age", VNum 27);
                   ("role", VStr "Admin")];
      list_to_map [("id", VStr "2"); ("name", VStr "Jane");
                   ("email", VStr "john@example.com"); ("age", VStr "31.5");
                   ("role", VStr "IT")];
      list_to_map [("id", VStr "3"); ("name", VStr "Doby");
                   ("email", VStr "doby@example.com"); ("age", VNum 29);
                   ("role", VStr "Operations")] ].
Proof.
  assert (H1 : Store.rows (App.store (App.mkScreen initial_state App.initial_ui [])) !! 1%nat
    = Some (list_to_map [("id", VStr "2"); ("name", VStr "John");
                         ("email", VStr "john@example.com"); ("age", VNum 28);
                         ("role", VStr "IT")])) by (vm_compute; reflexivity).
  split; [exact H1|].
  destruct (saving_an_edit_replaces_the_edited_row (Stringify0 := Store.json_rows)
              (App.mkScreen initial_state App.initial_ui []) _
              [("name", "Jane"); ("age", "31.5")] 1 (round_dec 315 (-1)) H1)
    as (Hrows & _).
  - intros j r' Hj Hr'. destruct j as [|j]; [|lia].
    vm_compute in Hr'. injection Hr' as <-. by vm_compute.
  - by vm_compute.
  - repeat constructor; by vm_compute.
  - by vm_compute.
  - rewrite Hrows. vm_compute. reflexivity.
Defined.

(** The instance of X15: a text whose only record has no name, then a text
    whose only record is complete. *)
Lemma clean_import_keeps_the_old_errors_witness :
  Csv.errors (Csv.parseCSV (λ _, 1700000000000%N)
                ("name,email" +:+ nl +:+ ",bob@x.com" +:+ nl)) ≠ [] ∧
  Csv.errors (Csv.parseCSV (λ _, 1700000000001%N)
                ("name,email" +:+ nl +:+ "Al,a@x.com" +:+ nl)) = [] ∧
  App.importErrors (App.ui
    (@App.handleImportText Store.json_rows (λ _, 1700000000001%N)
       ("name,email" +:+ nl +:+ "Al,a@x.com" +:+ nl)
       (@App.handleImportText Store.json_rows (λ _, 1700000000000%N)
          ("name,email" +:+ nl +:+ ",bob@x.com" +:+ nl)
          (App.mkScreen initial_state App.initial_ui []))))
  = Some ["Row 1:missing name or email"].
Proof.
  assert (H1 : Csv.errors (Csv.parseCSV (λ _, 1700000000000%N)
                ("name,email" +:+ nl +:+ ",bob@x.com" +:+ nl)) ≠ [])
    by (by vm_compute).
  assert (H2 : Csv.errors (Csv.parseCSV (λ _, 1700000000001%N)
                ("name,email" +:+ nl +:+ "Al,a@x.com" +:+ nl)) = [])
    by (vm_compute; reflexivity).
  split; [exact H1|]. split; [exact H2|].
  destruct (clean_import_keeps_the_old_errors (Stringify0 := Store.json_rows)
              _ _ _ _ (App.mkScreen initial_state App.initial_ui []) H1 H2) as (-> & _).
  vm_compute. reflexivity.
Defined.

(** ** App.tsx: the rows made from the remote list *)
Section Seeding.
Import Store App.
Context `{!Stringify (list Row)}.

Lemma or_val_truthy (a b : value) : truthy b = true → truthy (or_val a b) = true.
Proof. intros Hb. unfold or_val. by destruct (truthy a) eqn:Ha. Qed.

Lemma seed_row_fields (d : Z) (i : nat) (u : RemoteUser) :
  get (seed_row d i u) "id" = VStr (to_string (u_id u)) ∧
  truthy (get (seed_row d i u) "name") = true ∧
  truthy (get (seed_row d i u) "email") = true ∧
  get (seed_row d i u) "age" = VNum (d + 18) ∧
  get (seed_row d i u) "role" = VStr "Viewer".
Proof.
  unfold seed_row, get. cbn [list_to_map foldr uncurry fst snd].
  rewrite lookup_insert_eq.
  rewrite !(lookup_insert_ne _ "id") by done. rewrite lookup_insert_eq.
  rewrite !(lookup_insert_ne _ "name") by done. rewrite lookup_insert_eq.
  rewrite !(lookup_insert_ne _ "email") by done. rewrite lookup_insert_eq.
  rewrite !(lookup_insert_ne _ "age") by done. rewrite lookup_insert_eq.
  cbn [default]. repeat split.
  - by repeat apply or_val_truthy.
  - by apply or_val_truthy.
Qed.

(** X16.  Every row made from the remote list has a string as id, a name and
    an email that are not empty, the role [Viewer] and an age from 18 to 60,
    given that the random draw is one of 0 to 42; there is one row per record,
    and their ids are the texts of the remote ids, so the rows have distinct
    ids exactly when these texts are distinct.  A fetch that fails leaves the
    screen as it is. *)
Theorem seeded_rows_are_complete (draw : nat → Z) (data : list RemoteUser) (s : Screen) :
  (∀ i, 0 ≤ draw i < 43) →
  Forall (λ row : Row,
            (∃ t, get row "id" = VStr t) ∧
            truthy (get row "name") = true ∧
            truthy (get row "email") = true ∧
            get row "role" = VStr "Viewer" ∧
            (∃ a : Z, get row "age" = VNum a ∧ 18 ≤ a ≤ 60))
    (mapUsers draw data) ∧
  ids (mapUsers draw data) = (λ u, VStr (to_string (u_id u))) <$> data ∧
  (ids_ok (mapUsers draw data) ↔ NoDup ((λ u, to_string (u_id u)) <$> data)) ∧
  rows (store (fetchUsers draw (Some data) s)) = mapUsers draw data ∧
  fetchUsers draw None s = s.
Proof.
  intros Hdraw.
  assert (Hids : ids (mapUsers draw data) = (λ u, VStr (to_string (u_id u))) <$> data).
  { unfold ids, mapUsers. rewrite fmap_imap.
    rewrite <- (imap_const (λ u, VStr (to_string (u_id u))) data).
    apply imap_ext. intros i u _. cbn. apply seed_row_fields. }
  assert (Hall : Forall (λ row : Row,
            (∃ t, get row "id" = VStr t) ∧
            truthy (get row "name") = true ∧
            truthy (get row "email") = true ∧
            get row "role" = VStr "Viewer" ∧
            (∃ a : Z, get row "age" = VNum a ∧ 18 ≤ a ≤ 60))
    (mapUsers draw data)).
  { apply Forall_lookup. intros i row. unfold mapUsers. rewrite list_lookup_imap.
    destruct (data !! i) as [u|]; [|done]. intros [= <-].
    destruct (seed_row_fields (draw i) i u) as (Hid & Hname & Hemail & Hage & Hrole).
    split; [eauto|]. split; [done|]. split; [done|]. split; [done|].
    exists (draw i + 18). split; [done|]. specialize (Hdraw i). lia. }
  split; [exact Hall|]. split; [exact Hids|]. split; [|done].
  unfold ids_ok. rewrite Hids. split.
  - intros [Hnd _]. rewrite (list_fmap_compose (λ u, to_string (u_id u)) VStr) in Hnd.
    by apply NoDup_fmap_1 in Hnd.
  - intros Hnd. split.
    + rewrite (list_fmap_compose (λ u, to_string (u_id u)) VStr).
      apply NoDup_fmap_2; [|done]. by intros ?? [= ->].
    + eapply Forall_impl; [exact Hall|]. intros row ([t Ht] & _). by rewrite Ht.
Qed.

End Seeding.

(** The instance of X16: the draw is the record number, always below 43 here
    as it is taken modulo 43; two remote records, the second without a name. *)
Lemma seeded_rows_are_complete_witness :
  (∀ i : nat, 0 ≤ Z.of_nat i mod 43 < 43) ∧
  App.mapUsers (λ i, Z.of_nat i mod 43)
    [ App.mkRemote (VNum 1) (VStr "Leanne") (VStr "Bret") (VStr "l@april.biz")
        (VStr "1-770") (VStr "hildegard.org") (Some (VStr "Romaguera")) (Some (VStr "Gwenborough"));
      App.mkRemote (VNum 2) VUndef (VStr "Antonette") VNull
        VUndef VUndef None None ]
  = [ list_to_map [("id", VStr "1"); ("name", VStr "Leanne"); ("email", VStr "l@april.biz");
                   ("age", VNum 18); ("role", VStr "Viewer"); ("phone", VStr "1-770");
                   ("website", VStr "hildegard.org"); ("company", VStr "Romaguera");
                   ("address", VStr "Gwenborough")];
      list_to_map [("id", VStr "2"); ("name", VStr "Antonette");
                   ("email", VStr "user2@example.com");
                   ("age", VNum 19); ("role", VStr "Viewer"); ("phone", VUndef);
                   ("website", VUndef); ("company", VUndef);
                   ("address", VStr "")] ] ∧
  ids_ok (App.mapUsers (λ i, Z.of_nat i mod 43)
    [ App.mkRemote (VNum 1) (VStr "Leanne") (VStr "Bret") (VStr "l@april.biz")
        (VStr "1-770") (VStr "hildegard.org") (Some (VStr "Romaguera")) (Some (VStr "Gwenborough"));
      App.mkRemote (VNum 2) VUndef (VStr "Antonette") VNull
        VUndef VUndef None None ]).
Proof.
  assert (H : ∀ i : nat, 0 ≤ Z.of_nat i mod 43 < 43).
  { intros i. apply Z.mod_pos_bound. lia. }
  split; [exact H|]. split; [vm_compute; reflexivity|].
  destruct (seeded_rows_are_complete (Stringify0 := Store.json_rows)
              (λ i, Z.of_nat i mod 43)
              [ App.mkRemote (VNum 1) (VStr "Leanne") (VStr "Bret") (VStr "l@april.biz")
                  (VStr "1-770") (VStr "hildegard.org") (Some (VStr "Romaguera"))
                  (Some (VStr "Gwenborough"));
                App.mkRemote (VNum 2) VUndef (VStr "Antonette") VNull
                  VUndef VUndef None None ]
              (App.mkScreen initial_state App.initial_ui []) H)
    as (_ & _ & Hok & _).
  apply Hok. apply (bool_decide_unpack _). by vm_compute.
Defined.

(** ** App.tsx: adding a column, exporting *)
Section ColumnsAndExport.
Import Papa Csv Store View App.
Context `{!Stringify (list ColumnDef)}.

Lemma all_white_trim (s : string) : all_white s ↔ trim s = "".
Proof.
  split.
  - intros Hs. unfold trim. by rewrite trimStart_all_white.
  - intros Ht. destruct (trim_trimmed s) as (pre & post & Hs & Hpre & Hpost & _).
    rewrite Ht, app_nil_l_str in Hs. subst s. unfold all_white.
    rewrite chars_app. by apply Forall_app.
Qed.

Lemma lower_code_not_white (c : ascii) : ¬ white c → ¬ white (lower_char c).
Proof.
  unfold white, white_codes. rewrite lower_char_code. unfold lower_code.
  rewrite !elem_of_cons, !elem_of_nil. case_decide; lia.
Qed.

Lemma toLowerCase_no_white (s : string) : no_white s → no_white (toLowerCase s).
Proof.
  unfold no_white. induction s as [|c s IH]; [done|].
  cbn [toLowerCase chars]. intros [Hc Hs]%Forall_cons.
  constructor; [by apply lower_code_not_white|by apply IH].
Qed.

Lemma underscore_clean :
  ¬ white "_"%char ∧ lower_code (nat_of_ascii "_"%char) = nat_of_ascii "_"%char.
Proof.
  split; [|reflexivity]. unfold white, white_codes.
  rewrite !elem_of_cons, elem_of_nil. change (nat_of_ascii "_") with 95%nat. lia.
Qed.

Lemma replace_spaces_no_white (s : string) : ∀ run,
  no_white (replace_spaces run s).
Proof.
  unfold no_white. induction s as [|c s IH]; intros run; [constructor|].
  cbn [replace_spaces]. destruct (is_white c) eqn:Hc.
  - destruct run; [apply IH|]. cbn [chars]. constructor; [apply underscore_clean|apply IH].
  - cbn [chars]. constructor; [by apply is_white_false|apply IH].
Qed.

Lemma replace_spaces_no_upper (s : string) : ∀ run,
  no_upper s → no_upper (replace_spaces run s).
Proof.
  unfold no_upper. induction s as [|c s IH]; intros run Hs; [constructor|].
  cbn [chars] in Hs. apply Forall_cons in Hs as [Hc Hs].
  cbn [replace_spaces]. destruct (is_white c).
  - destruct run; [by apply IH|]. cbn [chars].
    constructor; [apply underscore_clean|by apply IH].
  - cbn [chars]. constructor; [done|by apply IH].
Qed.

Lemma replace_spaces_nonempty (s : string) :
  s ≠ "" → replace_spaces false s ≠ "".
Proof.
  destruct s as [|c s]; [done|]. intros _. cbn [replace_spaces].
  by destruct (is_white c).
Qed.

Lemma replace_spaces_id (s : string) : ∀ run,
  no_white s → replace_spaces run s = s.
Proof.
  unfold no_white. induction s as [|c s IH]; intros run Hs; [done|].
  cbn [chars] in Hs. apply Forall_cons in Hs as [Hc Hs].
  cbn [replace_spaces]. rewrite (proj2 (is_white_false c) Hc). by rewrite IH.
Qed.

Lemma toLowerCase_nonempty (s : string) : s ≠ "" → toLowerCase s ≠ "".
Proof. by destruct s. Qed.

(** X17.  Adding a column from the dialog.  An input that is empty or white
    space only (the no-break space is white space) adds nothing.  Otherwise
    one visible column is appended, the others are kept in place; its label
    is the input without the white space at its two ends, and its key is
    never empty and has neither white space nor a character with another
    lower-case form; when the label has no white space inside, the key is
    the label in lower case.  So the input [Start Date] between spaces gives
    the label [Start Date] and the key [start_date]. *)
Theorem added_column_has_a_clean_key (input : string) (s : Screen) :
  (all_white input → handleAddColumn input s = s) ∧
  (¬ all_white input →
     ∃ c, columns (store (handleAddColumn input s)) = columns (store s) ++ [c] ∧
          trimmed_of input (label c) ∧ visible c = true ∧
          key c ≠ "" ∧ no_white (key c) ∧ no_upper (key c) ∧
          (no_white (label c) → lowered_of (label c) (key c)) ∧
          rows (store (handleAddColumn input s)) = rows (store s)) ∧
  handleAddColumn (String "160" (String "009" " ")) s = s ∧
  columns (store (handleAddColumn ("  Start " +:+ String "009" " Date " +:+ String "160" "") s))
    = columns (store s) ++ [mkColumn "start_date" ("Start " +:+ String "009" " Date") true] ∧
  columns (store (handleAddColumn (String "201" "COLE") s))
    = columns (store s) ++ [mkColumn (String "233" "cole") (String "201" "COLE") true].
Proof.
  split; [|split; [|done]].
  - intros Hempty%all_white_trim. unfold handleAddColumn.
    by rewrite bool_decide_eq_true_2.
  - intros Hlabel. unfold handleAddColumn.
    rewrite bool_decide_eq_false_2 by (by rewrite <- all_white_trim).
    eexists. cbn [store]. unfold addColumn. cbn [columns rows key label visible].
    split; [done|]. split; [apply trim_trimmed|]. split; [done|].
    split.
    { apply replace_spaces_nonempty, toLowerCase_nonempty.
      by rewrite <- all_white_trim. }
    split; [apply replace_spaces_no_white|].
    split; [apply replace_spaces_no_upper, toLowerCase_no_upper|].
    split; [|done].
    intros Hnw. rewrite replace_spaces_id by (by apply toLowerCase_no_white).
    apply toLowerCase_lowered.
Qed.











End ColumnsAndExport.

(** ** App.tsx: edits that are lost *)
Section LostEdits.
Import Store View App.
Context `{!Stringify (list Row)}.

(** X19.  Cancelling an edit never changes the data: after any typing, a
    cancel leaves the store as it was before the row was opened, empties the
    cache and closes the edit, and a save after it does nothing. *)
Theorem cancel_discards_the_edit (s : Screen) (row : Row)
    (edits : list (string * string)) :
  store (cancelEdit (after_edits row edits s)) = store s ∧
  editCache (ui (cancelEdit (after_edits row edits s))) = ∅ ∧
  editingId (ui (cancelEdit (after_edits row edits s))) = VNull ∧
  saveEdit (cancelEdit (after_edits row edits s)) = cancelEdit (after_edits row edits s).
Proof.
  destruct (after_edits_parts row edits s) as (Hst & _).
  unfold cancelEdit, saveEdit. cbn [store ui editCache editingId truthy negb].
  by rewrite Hst.
Qed.

(** X20.  When the id itself is retyped to a value that no row has, the save
    finds no row to replace: the rows stay as they are, the edit is closed
    and no message is shown, so what was typed is lost without notice. *)
Theorem retyped_id_without_match_loses_the_edit (s : Screen) (row : Row)
    (edits : list (string * string)) (n : number) :
  truthy (get row "id") = true →
  to_number (get (edited row edits) "age") = Some n →
  (∀ r, r ∈ rows (store s) → get r "id" ≠ get (edited row edits) "id") →
  rows (store (saveEdit (after_edits row edits s))) = rows (store s) ∧
  editingId (ui (saveEdit (after_edits row edits s))) = VNull ∧
  alerts (saveEdit (after_edits row edits s)) = alerts s.
Proof.
  intros Hid Hage Hmiss.
  destruct (after_edits_parts row edits s) as (Hst & Hal & Heid & Hcache).
  unfold saveEdit. rewrite Heid, Hid, Hcache, Hage. cbn [negb store ui alerts editingId].
  rewrite Hst, Hal. split; [|done]. by apply updateRow_rows_miss.
Qed.

End LostEdits.

(** The instance of X20 on the sample rows: the second row is opened and its
    id retyped to [9]. *)
Lemma retyped_id_without_match_loses_the_edit_witness :
  App.truthy (get (list_to_map [("id", VStr "2"); ("name", VStr "John");
                                ("email", VStr "john@example.com"); ("age", VNum 28);
                                ("role", VStr "IT")] : Row) "id") = true ∧
  Store.rows (App.store (@App.saveEdit Store.json_rows
     (after_edits
        (list_to_map [("id", VStr "2"); ("name", VStr "John");
                      ("email", VStr "john@example.com"); ("age", VNum 28);
                      ("role", VStr "IT")])
        [("id", "9"); ("name", "Jane")]
        (App.mkScreen initial_state App.initial_ui []))))
  = Store.sampleData.
Proof.
  assert (H1 : App.truthy (get (list_to_map [("id", VStr "2"); ("name", VStr "John");
                                ("email", VStr "john@example.com"); ("age", VNum 28);
                                ("role", VStr "IT")] : Row) "id") = true)
    by (vm_compute; reflexivity).
  split; [exact H1|].
  destruct (retyped_id_without_match_loses_the_edit (Stringify0 := Store.json_rows)
              (App.mkScreen initial_state App.initial_ui []) _
              [("id", "9"); ("name", "Jane")] 28 H1) as (Hrows & _).
  - vm_compute. reflexivity.
  - intros r Hr. cbn [App.store Store.rows initial_state] in Hr.
    unfold Store.sampleData in Hr.
    repeat (apply elem_of_cons in Hr as [->|Hr]); [| | |by apply elem_of_nil in Hr];
      by vm_compute.
  - exact Hrows.
Defined.
